(** * Shallow-water integrator: a shallow embedding of [shallow_water_sim.py]

    The script integrates the 2D shallow-water equations with numpy arrays
    that are updated in place ([u_np1[:-1, :] = ...]) and re-bound to fresh
    copies ([u_n = np.copy(u_np1)]).  The embedding keeps that structure:

    - scalars are an interface ([Scalar]) with the operations the script
      uses; results that only depend on the data flow hold for every
      instance, results on sums need the laws of exact arithmetic
      ([ExactScalar]).  Instances: [Qc] (runs inside Rocq) and [R];
    - a 2D array is a list of rows; slices, broadcasts and slice assignments
      follow numpy, and raise (here: [None]) on a shape mismatch;
    - the interpreter state is a store of array objects plus the binding of
      every array name to an object, so aliasing is visible;
    - the start-up arithmetic (grid spacing, time step, Gaussian bump) needs
      square roots and exponentials and is stated over [R]. *)

From Stdlib Require Import ZArith QArith Qcanon Reals Lra Ring Field.
From stdpp Require Import base option list.

(** ** Scalars *)

(** The arithmetic the script performs on array entries.  [gtb x y] is the
    comparison [x > y]. *)
Class Scalar (F : Type) := {
  zero : F;
  add : F -> F -> F;
  sub : F -> F -> F;
  mul : F -> F -> F;
  div : F -> F -> F;
  gtb : F -> F -> bool
}.

(** [0 > 0] is false. *)
Class StrictOrder0 (F : Type) {SF : Scalar F} :=
  gtb_zero_zero : gtb zero zero = false.

(** Exact arithmetic: the operations form a field. *)
Class ExactScalar (F : Type) {SF : Scalar F} := {
  one : F;
  opp : F -> F;
  inv : F -> F;
  scalar_field : field_theory zero one add mul sub opp div inv eq
}.

Definition Qc_gtb (x y : Qc) : bool :=
  match (x ?= y)%Qc with Gt => true | _ => false end.

#[export] Instance Qc_Scalar : Scalar Qc := {|
  zero := 0%Qc; add := Qcplus; sub := Qcminus; mul := Qcmult; div := Qcdiv;
  gtb := Qc_gtb |}.

#[export] Instance Qc_StrictOrder0 : StrictOrder0 Qc.
Proof. reflexivity. Qed.

#[export] Instance Qc_ExactScalar : ExactScalar Qc := {|
  one := 1%Qc; opp := Qcopp; inv := Qcinv; scalar_field := Qcft |}.

Definition R_gtb (x y : R) : bool := if Rgt_dec x y then true else false.

#[export] Instance R_Scalar : Scalar R := {|
  zero := 0%R; add := Rplus; sub := Rminus; mul := Rmult; div := Rdiv;
  gtb := R_gtb |}.

#[export] Instance R_StrictOrder0 : StrictOrder0 R.
Proof.
  unfold StrictOrder0; simpl; unfold R_gtb.
  destruct (Rgt_dec 0 0) as [Hgt | _]; [lra | reflexivity].
Qed.

#[export] Instance R_ExactScalar : ExactScalar R := {|
  one := 1%R; opp := Ropp; inv := Rinv; scalar_field := Rfield |}.

(** ** Arrays *)

(** A 1D array is a list, a 2D array the list of its rows (first index). *)
Abbreviation Array F := (list (list F)) (only parsing).

Section Arrays.
Context {F : Type} {SF : Scalar F}.

(** [shaped nx ny A]: [A.shape == (nx, ny)]. *)
Definition shaped {X : Type} (nx ny : nat) (A : list (list X)) : Prop :=
  length A = nx /\ Forall (fun r => length r = ny) A.

(** The array with entry [f i j] at [i, j]. *)
Definition tab1 {X : Type} (n : nat) (f : nat -> X) : list X := f <$> seq 0 n.
Definition tab {X : Type} (nx ny : nat) (f : nat -> nat -> X) : list (list X) :=
  tab1 nx (fun i => tab1 ny (f i)).

Definition same_len {X Y : Type} (r : list X) (s : list Y) : bool :=
  Nat.eqb (length r) (length s).

Fixpoint same_shape {X Y : Type} (A : list (list X)) (B : list (list Y)) : bool :=
  match A, B with
  | [], [] => true
  | r :: A', s :: B' => same_len r s && same_shape A' B'
  | _, _ => false
  end.

(** [np.zeros((nx, ny))] *)
Definition zeros (nx ny : nat) : Array F := replicate nx (replicate ny zero).

(** [A[i, j]]; [zero] stands in outside the array, where numpy raises. *)
Definition at2 (A : Array F) (i j : nat) : F :=
  default zero (A !! i ≫= (.!! j)).

(** *** Slices (views; slicing never raises) *)

(** [r[:-1]] and [r[1:]] *)
Definition init1 {X : Type} (r : list X) : list X := take (length r - 1) r.
Definition tail1 {X : Type} (r : list X) : list X := drop 1 r.

(** [A[:-1, :]], [A[1:, :]], [A[:, :-1]], [A[:, 1:]] *)
Definition rows_init {X : Type} (A : list (list X)) : list (list X) := init1 A.
Definition rows_tail {X : Type} (A : list (list X)) : list (list X) := tail1 A.
Definition cols_init {X : Type} (A : list (list X)) : list (list X) := map init1 A.
Definition cols_tail {X : Type} (A : list (list X)) : list (list X) := map tail1 A.

(** [A[0, :]], [A[-1, :]], [A[:, 0]], [A[:, -1]]: [IndexError] on an empty
    axis. *)
Definition row_first {X : Type} (A : list (list X)) : option (list X) := head A.
Definition row_last {X : Type} (A : list (list X)) : option (list X) := last A.
Definition col_first {X : Type} (A : list (list X)) : option (list X) := mapM head A.
Definition col_last {X : Type} (A : list (list X)) : option (list X) := mapM last A.

(** *** Elementwise operations *)

(** A binary ufunc on two 1D / 2D arrays of one shape. *)
Definition ew1 {X Y Z : Type} (f : X -> Y -> Z) (r : list X) (s : list Y)
  : option (list Z) :=
  if same_len r s then Some (zip_with f r s) else None.

Definition ew2 {X Y Z : Type} (f : X -> Y -> Z) (A : list (list X))
  (B : list (list Y)) : option (list (list Z)) :=
  if same_shape A B then Some (zip_with (zip_with f) A B) else None.

(** Scalar broadcasts: [c * A], [A + c], [A / c], [A > c], and on rows. *)
Definition smul (c : F) (A : Array F) : Array F := map (map (mul c)) A.
Definition adds (A : Array F) (c : F) : Array F := map (map (fun x => add x c)) A.
Definition divs (A : Array F) (c : F) : Array F := map (map (fun x => div x c)) A.
Definition gts (A : Array F) (c : F) : list (list bool) :=
  map (map (fun x => gtb x c)) A.
Definition adds1 (r : list F) (c : F) : list F := map (fun x => add x c) r.

(** [np.where(C, A, B)] *)
Definition where_ (C : list (list bool)) (A B : Array F) : option (Array F) :=
  AB ← ew2 pair A B;
  ew2 (fun (c : bool) (ab : F * F) => if c then ab.1 else ab.2) C AB.

(** [np.sum(A)] *)
Definition sum1 (r : list F) : F := foldr add zero r.
Definition sum2 (A : Array F) : F := foldr (fun r acc => add (sum1 r) acc) zero A.

(** *** Slice assignments

    Each takes the old contents of the target and the value, and gives the
    new contents of the target ([ValueError] when the shapes differ,
    [IndexError] when the indexed axis is empty). *)

(** [A[:-1, :] = B] *)
Definition set_rows_init (A B : Array F) : option (Array F) :=
  if same_shape (rows_init A) B then Some (B ++ drop (length A - 1) A) else None.

(** [A[1:, :] = B] *)
Definition set_rows_tail (A B : Array F) : option (Array F) :=
  if same_shape (rows_tail A) B then Some (take 1 A ++ B) else None.

(** [A[:, :-1] = B] *)
Definition set_cols_init (A B : Array F) : option (Array F) :=
  if same_shape (cols_init A) B
  then Some (zip_with (fun r b => b ++ drop (length r - 1) r) A B) else None.

(** [A[:, 1:] = B] *)
Definition set_cols_tail (A B : Array F) : option (Array F) :=
  if same_shape (cols_tail A) B
  then Some (zip_with (fun r b => take 1 r ++ b) A B) else None.

(** [A[0, :] = r] *)
Definition set_row_first (A : Array F) (r : list F) : option (Array F) :=
  match A with
  | [] => None
  | r0 :: A' => if same_len r0 r then Some (r :: A') else None
  end.

(** [A[-1, :] = r] *)
Definition set_row_last (A : Array F) (r : list F) : option (Array F) :=
  r0 ← last A;
  if same_len r0 r then Some (rows_init A ++ [r]) else None.

(** [A[:, 0] = c] *)
Definition set_col_first (A : Array F) (c : list F) : option (Array F) :=
  if same_len A c
  then mapM (fun rc : list F * F =>
               match rc.1 with [] => None | _ :: r' => Some (rc.2 :: r') end)
            (zip A c)
  else None.

(** [A[:, -1] = c] *)
Definition set_col_last (A : Array F) (c : list F) : option (Array F) :=
  if same_len A c
  then mapM (fun rc : list F * F =>
               match rc.1 with [] => None | _ => Some (init1 rc.1 ++ [rc.2]) end)
            (zip A c)
  else None.

(** [A[-1, :] = c] and [A[:, -1] = c] for a scalar [c] (broadcast). *)
Definition fill_row_last (A : Array F) (c : F) : option (Array F) :=
  r0 ← last A; set_row_last A (replicate (length r0) c).
Definition fill_col_last (A : Array F) (c : F) : option (Array F) :=
  set_col_last A (replicate (length A) c).

(** [A[:, :] = B] *)
Definition set_all (A B : Array F) : option (Array F) :=
  if same_shape A B then Some B else None.

End Arrays.

(** ** The interpreter state *)

(** The array names of the script. *)
Inductive Var :=
  | u_n | u_np1 | v_n | v_np1 | eta_n | eta_np1
  | h_e | h_w | h_n | h_s | uhwe | vhns.

#[export] Instance Var_eq_dec : EqDecision Var.
Proof. solve_decision. Defined.

(** The module-level constants the time loop reads. *)
Record Constants (F : Type) := {
  g : F;
  H : F;
  dx : F;
  dy : F;
  dt : F;
  max_time_step : Z;
  anim_interval : Z
}.
Arguments g {F} _.
Arguments H {F} _.
Arguments dx {F} _.
Arguments dy {F} _.
Arguments dt {F} _.
Arguments max_time_step {F} _.
Arguments anim_interval {F} _.

(** [heap] is the store of array objects (an object is its index), [env]
    binds each array name to an object; the three lists hold references. *)
Record Machine (F : Type) := {
  heap : list (Array F);
  env : Var -> nat;
  time_step : Z;
  u_list : list nat;
  v_list : list nat;
  eta_list : list nat
}.
Arguments heap {F} _.
Arguments env {F} _.
Arguments time_step {F} _.
Arguments u_list {F} _.
Arguments v_list {F} _.
Arguments eta_list {F} _.

(** Expressions read the state, statements change it; [None] is a raised
    exception. *)
Definition Expr (F X : Type) := Machine F -> option X.
Definition Stmt (F : Type) := Machine F -> option (Machine F).

Definition seq_stmt {F : Type} (s1 s2 : Stmt F) : Stmt F :=
  fun m => m' ← s1 m; s2 m'.
Notation "s1 ;;; s2" := (seq_stmt s1 s2) (at level 90, right associativity).

Section Interpreter.
Context {F : Type} {SF : Scalar F}.

(** The object bound to a name, and its contents ([[]] if dangling). *)
Definition rd (x : Var) : Expr F (Array F) := fun m => heap m !! env m x.
Definition val (m : Machine F) (x : Var) : Array F := default [] (heap m !! env m x).

Definition lit {X : Type} (c : X) : Expr F X := fun _ => Some c.
Definition sl {X Y : Type} (f : X -> Y) (e : Expr F X) : Expr F Y :=
  fun m => f <$> e m.
Definition ix {X Y : Type} (f : X -> option Y) (e : Expr F X) : Expr F Y :=
  fun m => e m ≫= f.
Definition op2 {X Y Z : Type} (f : X -> Y -> option Z) (e1 : Expr F X)
  (e2 : Expr F Y) : Expr F Z :=
  fun m => a ← e1 m; b ← e2 m; f a b.
Definition np_where (c : Expr F (list (list bool))) (a b : Expr F (Array F))
  : Expr F (Array F) :=
  fun m => C ← c m; A ← a m; B ← b m; where_ C A B.

(** [x[slice] = e]: evaluate [e], then write into the object bound to [x]. *)
Definition poke (m : Machine F) (x : Var) (A : Array F) : Machine F :=
  {| heap := <[env m x := A]> (heap m); env := env m;
     time_step := time_step m; u_list := u_list m;
     v_list := v_list m; eta_list := eta_list m |}.

Definition assign {V : Type} (setter : Array F -> V -> option (Array F))
  (x : Var) (e : Expr F V) : Stmt F :=
  fun m =>
    v ← e m;
    A ← heap m !! env m x;
    A' ← setter A v;
    Some (poke m x A').

(** [x = np.copy(y)]: a new object, and [x] re-bound to it. *)
Definition alloc (m : Machine F) (x : Var) (A : Array F) : Machine F :=
  {| heap := heap m ++ [A];
     env := fun z => if decide (z = x) then length (heap m) else env m z;
     time_step := time_step m; u_list := u_list m;
     v_list := v_list m; eta_list := eta_list m |}.

Definition rebind_copy (x y : Var) : Stmt F :=
  fun m => A ← heap m !! env m y; Some (alloc m x A).

(** [time_step += 1] *)
Definition incr_time_step : Stmt F :=
  fun m =>
    Some {| heap := heap m; env := env m; time_step := time_step m + 1;
            u_list := u_list m; v_list := v_list m; eta_list := eta_list m |}.

(** [if (time_step % anim_interval == 0): u_list.append(u_n); ...]
    ([%] by zero raises [ZeroDivisionError]). *)
Definition sample (p : Constants F) : Stmt F :=
  fun m =>
    if Z.eqb (anim_interval p) 0 then None
    else if Z.eqb (time_step m mod anim_interval p) 0
    then Some {| heap := heap m; env := env m; time_step := time_step m;
                 u_list := u_list m ++ [env m u_n];
                 v_list := v_list m ++ [env m v_n];
                 eta_list := eta_list m ++ [env m eta_n] |}
    else Some m.

(** *** The body of the time loop, in the order of the source *)

(** [np.where(vel > 0, eta_n[lo] + H, eta_n[hi] + H)] *)
Definition upwind (p : Constants F) (vel lo hi : Expr F (Array F)) : Expr F (Array F) :=
  np_where (sl (fun A => gts A zero) vel)
           (sl (fun A => adds A (H p)) lo) (sl (fun A => adds A (H p)) hi).

Definition momentum (p : Constants F) : Stmt F :=
  (* u_np1[:-1, :] = u_n[:-1, :] - g*dt/dx*(eta_n[1:, :] - eta_n[:-1, :]) *)
  assign set_rows_init u_np1
    (op2 (ew2 sub) (sl rows_init (rd u_n))
       (sl (smul (div (mul (g p) (dt p)) (dx p)))
           (op2 (ew2 sub) (sl rows_tail (rd eta_n)) (sl rows_init (rd eta_n))))) ;;;
  (* v_np1[:, :-1] = v_n[:, :-1] - g*dt/dy*(eta_n[:, 1:] - eta_n[:, :-1]) *)
  assign set_cols_init v_np1
    (op2 (ew2 sub) (sl cols_init (rd v_n))
       (sl (smul (div (mul (g p) (dt p)) (dy p)))
           (op2 (ew2 sub) (sl cols_tail (rd eta_n)) (sl cols_init (rd eta_n))))).

Definition boundary_v_then_u : Stmt F :=
  (* v_np1[:, -1] = 0.0 *)
  assign fill_col_last v_np1 (lit zero) ;;;
  (* u_np1[-1, :] = 0.0 *)
  assign fill_row_last u_np1 (lit zero).

Definition upwind_depths (p : Constants F) : Stmt F :=
  (* h_e[:-1, :] = np.where(u_np1[:-1, :] > 0, eta_n[:-1, :] + H, eta_n[1:, :] + H) *)
  assign set_rows_init h_e
    (upwind p (sl rows_init (rd u_np1)) (sl rows_init (rd eta_n)) (sl rows_tail (rd eta_n))) ;;;
  (* h_e[-1, :] = eta_n[-1, :] + H *)
  assign set_row_last h_e (sl (fun r => adds1 r (H p)) (ix row_last (rd eta_n))) ;;;
  (* h_w[0, :] = eta_n[0, :] + H *)
  assign set_row_first h_w (sl (fun r => adds1 r (H p)) (ix row_first (rd eta_n))) ;;;
  (* h_w[1:, :] = np.where(u_np1[:-1, :] > 0, eta_n[:-1, :] + H, eta_n[1:, :] + H) *)
  assign set_rows_tail h_w
    (upwind p (sl rows_init (rd u_np1)) (sl rows_init (rd eta_n)) (sl rows_tail (rd eta_n))) ;;;
  (* h_n[:, :-1] = np.where(v_np1[:, :-1] > 0, eta_n[:, :-1] + H, eta_n[:, 1:] + H) *)
  assign set_cols_init h_n
    (upwind p (sl cols_init (rd v_np1)) (sl cols_init (rd eta_n)) (sl cols_tail (rd eta_n))) ;;;
  (* h_n[:, -1] = eta_n[:, -1] + H *)
  assign set_col_last h_n (sl (fun r => adds1 r (H p)) (ix col_last (rd eta_n))) ;;;
  (* h_s[:, 0] = eta_n[:, 0] + H *)
  assign set_col_first h_s (sl (fun r => adds1 r (H p)) (ix col_first (rd eta_n))) ;;;
  (* h_s[:, 1:] = np.where(v_np1[:, :-1] > 0, eta_n[:, :-1] + H, eta_n[:, 1:] + H) *)
  assign set_cols_tail h_s
    (upwind p (sl cols_init (rd v_np1)) (sl cols_init (rd eta_n)) (sl cols_tail (rd eta_n))).

Definition fluxes : Stmt F :=
  (* uhwe[0, :] = u_np1[0, :]*h_e[0, :] *)
  assign set_row_first uhwe
    (op2 (ew1 mul) (ix row_first (rd u_np1)) (ix row_first (rd h_e))) ;;;
  (* uhwe[1:, :] = u_np1[1:, :]*h_e[1:, :] - u_np1[:-1, :]*h_w[1:, :] *)
  assign set_rows_tail uhwe
    (op2 (ew2 sub)
       (op2 (ew2 mul) (sl rows_tail (rd u_np1)) (sl rows_tail (rd h_e)))
       (op2 (ew2 mul) (sl rows_init (rd u_np1)) (sl rows_tail (rd h_w)))) ;;;
  (* vhns[:, 0] = v_np1[:, 0]*h_n[:, 0] *)
  assign set_col_first vhns
    (op2 (ew1 mul) (ix col_first (rd v_np1)) (ix col_first (rd h_n))) ;;;
  (* vhns[:, 1:] = v_np1[:, 1:]*h_n[:, 1:] - v_np1[:, :-1]*h_s[:, 1:] *)
  assign set_cols_tail vhns
    (op2 (ew2 sub)
       (op2 (ew2 mul) (sl cols_tail (rd v_np1)) (sl cols_tail (rd h_n)))
       (op2 (ew2 mul) (sl cols_init (rd v_np1)) (sl cols_tail (rd h_s)))).

Definition continuity_update (p : Constants F) : Stmt F :=
  (* eta_np1[:, :] = eta_n[:, :] - dt*(uhwe[:, :]/dx + vhns[:, :]/dy) *)
  assign set_all eta_np1
    (op2 (ew2 sub) (rd eta_n)
       (sl (smul (dt p))
           (op2 (ew2 add) (sl (fun A => divs A (dx p)) (rd uhwe))
                          (sl (fun A => divs A (dy p)) (rd vhns))))).

Definition rotate_state : Stmt F :=
  (* u_n = np.copy(u_np1); v_n = np.copy(v_np1); eta_n = np.copy(eta_np1) *)
  rebind_copy u_n u_np1 ;;; rebind_copy v_n v_np1 ;;; rebind_copy eta_n eta_np1.

Definition loop_body (p : Constants F) : Stmt F :=
  momentum p ;;; boundary_v_then_u ;;; upwind_depths p ;;; fluxes ;;;
  continuity_update p ;;; rotate_state ;;; incr_time_step ;;; sample p.

(** The block before the loop (lines 234-242): the momentum update, then
    the eastern and the northern boundary. *)
Definition pre_loop (p : Constants F) : Stmt F :=
  momentum p ;;;
  assign fill_row_last u_np1 (lit zero) ;;;
  assign fill_col_last v_np1 (lit zero).

(** [while (time_step < max_time_step): body].  The result carries the
    number of times the body ran; [None] also when [fuel] runs out. *)
Fixpoint while_loop (fuel : nat) (p : Constants F) (body : Stmt F) (m : Machine F)
  : option (Machine F * nat) :=
  match fuel with
  | O => None
  | S fuel' =>
      if Z.ltb (time_step m) (max_time_step p)
      then m' ← body m;
           r ← while_loop fuel' p body m';
           Some (r.1, S r.2)
      else Some (m, O)
  end.

Definition main_loop (fuel : nat) (p : Constants F) (m : Machine F)
  : option (Machine F * nat) :=
  while_loop fuel p (loop_body p) m.

(** The allocations of lines 185-198, the initial [eta_n] (a new object
    that replaces the zero array), the empty lists and [time_step = 1]. *)
Definition start (nx ny : nat) (eta0 : Array F) : Machine F :=
  {| heap := replicate 12 (zeros nx ny) ++ [eta0];
     env := fun x =>
       match x with
       | u_n => 0 | u_np1 => 1 | v_n => 2 | v_np1 => 3 | eta_n => 12
       | eta_np1 => 5 | h_e => 6 | h_w => 7 | h_n => 8 | h_s => 9
       | uhwe => 10 | vhns => 11
       end%nat;
     time_step := 1; u_list := []; v_list := []; eta_list := [] |}.

(** The run from the allocations on; and the run without lines 234-242. *)
Definition simulate (fuel nx ny : nat) (p : Constants F) (eta0 : Array F)
  : option (Machine F * nat) :=
  m ← pre_loop p (start nx ny eta0); main_loop fuel p m.

Definition simulate_without_pre_loop (fuel nx ny : nat) (p : Constants F)
  (eta0 : Array F) : option (Machine F * nat) :=
  main_loop fuel p (start nx ny eta0).

(** Every name is bound to its own object, of shape [(nx, ny)]. *)
Definition WF (nx ny : nat) (m : Machine F) : Prop :=
  (forall x y, env m x = env m y -> x = y) /\
  (forall x, exists A, heap m !! env m x = Some A /\ shaped nx ny A).

(** The names whose objects the loop writes in place. *)
Definition buffer (x : Var) : bool :=
  match x with u_n | v_n | eta_n => false | _ => true end.

(** [l] is an object that no in-place write can reach. *)
Definition frozen (m : Machine F) (l : nat) : Prop :=
  (l < length (heap m))%nat /\ forall x, buffer x = true -> env m x <> l.

(** [n] runs of a statement. *)
Fixpoint repeat_stmt (n : nat) (s : Stmt F) : Stmt F :=
  match n with
  | O => fun m => Some m
  | S n' => s ;;; repeat_stmt n' s
  end.

(** What the run hands over: the contents of the recorded arrays. *)
Definition deref (m : Machine F) (l : list nat) : list (option (Array F)) :=
  map (fun o => heap m !! o) l.
Definition snapshots (m : Machine F)
  : list (option (Array F)) * list (option (Array F)) * list (option (Array F)) :=
  (deref m (u_list m), deref m (v_list m), deref m (eta_list m)).

End Interpreter.

(** ** Start-up (lines 120-162 and 210), over the reals

    Reals stand for the script's floats; NaN and infinities are outside the
    model. *)
Module Cfg.

(** The constants set by hand at the top of the script. *)
Record Config := {
  L_x : R;
  L_y : R;
  g : R;
  H : R;
  N_x : Z;
  N_y : Z;
  max_time_step : Z;
  anim_interval : Z
}.

Definition default_config : Config :=
  {| L_x := 1000000; L_y := 1000000; g := 981 / 100; H := 100;
     N_x := 150; N_y := 150; max_time_step := 5000; anim_interval := 20 |}.

End Cfg.
Abbreviation Config := Cfg.Config.

(** [a / (n - 1)] for a float [a] and an int [n]: [ZeroDivisionError] when
    [n - 1] is 0. *)
Definition spacing (a : R) (n : Z) : option R :=
  if Z.eqb (n - 1) 0 then None else Some (a / IZR (n - 1))%R.

(** [0.1*min(dx, dy)/np.sqrt(g*H)] *)
Definition time_step_size (c : Config) (dx dy : R) : R :=
  (1 / 10 * Rmin dx dy / sqrt (Cfg.g c * Cfg.H c))%R.

(** Lines 145-149: [dx], [dy], [dt] and the constants of the loop. *)
Definition constants (c : Config) : option (Constants R) :=
  dx ← spacing (Cfg.L_x c) (Cfg.N_x c);
  dy ← spacing (Cfg.L_y c) (Cfg.N_y c);
  Some {| g := Cfg.g c; H := Cfg.H c; dx := dx; dy := dy;
          dt := time_step_size c dx dy;
          max_time_step := Cfg.max_time_step c;
          anim_interval := Cfg.anim_interval c |}.

(** The CFL bound of the docstring, [dt <= min(dx, dy)/sqrt(g*H)]. *)
Definition cfl_ok (k : Constants R) : Prop :=
  (dt k <= Rmin (dx k) (dy k) / sqrt (g k * H k))%R.

(** [np.linspace(start, stop, num)]: [ValueError] for a negative [num]. *)
Definition linspace (start stop : R) (num : Z) : option (list R) :=
  if Z.ltb num 0 then None
  else Some (tab1 (Z.to_nat num)
               (fun i => start + INR i * ((stop - start) / IZR (num - 1)))%R).

(** [np.meshgrid(x, y)] *)
Definition meshgrid (x y : list R) : Array R * Array R :=
  (replicate (length y) x, map (fun yj => replicate (length x) yj) y).

(** [np.transpose(A)] *)
Fixpoint transpose (A : Array R) : Array R :=
  match A with
  | [] => []
  | r :: A' =>
      match A' with
      | [] => map (fun a => [a]) r
      | _ => zip_with cons r (transpose A')
      end
  end.

(** One entry of line 210:
    [exp(-((X-L_x/2.7)**2/(2*(0.05E+6)**2) + (Y-L_y/4)**2/(2*(0.05E+6)**2)))] *)
Definition bump (c : Config) (x y : R) : R :=
  exp (- ((x - Cfg.L_x c / (27 / 10)) ^ 2 / (2 * 50000 ^ 2)
          + (y - Cfg.L_y c / 4) ^ 2 / (2 * 50000 ^ 2)))%R.

(** The state when the time loop is about to be reached: the grid, the
    arrays, the initial [eta_n]. *)
Definition initial_state (c : Config) : option (Constants R * Machine R) :=
  k ← constants c;
  x ← linspace (- Cfg.L_x c / 2) (Cfg.L_x c / 2) (Cfg.N_x c);
  y ← linspace (- Cfg.L_y c / 2) (Cfg.L_y c / 2) (Cfg.N_y c);
  let XY := meshgrid x y in
  let X := transpose XY.1 in
  let Y := transpose XY.2 in
  eta0 ← ew2 (bump c) X Y;
  Some (k, start (Z.to_nat (Cfg.N_x c)) (Z.to_nat (Cfg.N_y c)) eta0).

(** The whole script. *)
Definition program (fuel : nat) (c : Config) : option (Machine R * nat) :=
  km ← initial_state c;
  m ← pre_loop km.1 km.2;
  main_loop fuel km.1 m.

(** The coordinate of grid point [i] on an axis of length [L] with [n]
    points. *)
Definition coordinate (L : R) (n : Z) (i : nat) : R :=
  (- L / 2 + INR i * ((L / 2 - - L / 2) / IZR (n - 1)))%R.

(** The default constants with the x axis reversed. *)
Definition reversed_x_config : Config :=
  {| Cfg.L_x := (-1000000)%R; Cfg.L_y := 1000000%R; Cfg.g := (981 / 100)%R; Cfg.H := 100%R;
     Cfg.N_x := 150; Cfg.N_y := 150; Cfg.max_time_step := 5000;
     Cfg.anim_interval := 20 |}.

(** ** Closed forms

    The entries that one run of the loop body leaves in each array, as
    functions of the index; [loop_body_run] proves that the interpreter
    computes them. *)
Section ClosedForms.
Context {F : Type} {SF : Scalar F}.

Definition next_u (p : Constants F) (nx : nat) (u eta : Array F) (i j : nat) : F :=
  if (i =? nx - 1)%nat then zero
  else sub (at2 u i j)
           (mul (div (mul (g p) (dt p)) (dx p))
                (sub (at2 eta (S i) j) (at2 eta i j))).

Definition next_v (p : Constants F) (ny : nat) (v eta : Array F) (i j : nat) : F :=
  if (j =? ny - 1)%nat then zero
  else sub (at2 v i j)
           (mul (div (mul (g p) (dt p)) (dy p))
                (sub (at2 eta i (S j)) (at2 eta i j))).

(** The depth at the face between [i] and [i+1] (resp. [j] and [j+1]). *)
Definition face_x (p : Constants F) (u1 eta : Array F) (i j : nat) : F :=
  if gtb (at2 u1 i j) zero then add (at2 eta i j) (H p)
  else add (at2 eta (S i) j) (H p).

Definition face_y (p : Constants F) (v1 eta : Array F) (i j : nat) : F :=
  if gtb (at2 v1 i j) zero then add (at2 eta i j) (H p)
  else add (at2 eta i (S j)) (H p).

Definition depth_e (p : Constants F) (nx : nat) (u1 eta : Array F) (i j : nat) : F :=
  if (i =? nx - 1)%nat then add (at2 eta i j) (H p) else face_x p u1 eta i j.

Definition depth_w (p : Constants F) (u1 eta : Array F) (i j : nat) : F :=
  match i with
  | O => add (at2 eta O j) (H p)
  | S i' => face_x p u1 eta i' j
  end.

Definition depth_n (p : Constants F) (ny : nat) (v1 eta : Array F) (i j : nat) : F :=
  if (j =? ny - 1)%nat then add (at2 eta i j) (H p) else face_y p v1 eta i j.

Definition depth_s (p : Constants F) (v1 eta : Array F) (i j : nat) : F :=
  match j with
  | O => add (at2 eta i O) (H p)
  | S j' => face_y p v1 eta i j'
  end.

Definition flux_x (u1 he hw : Array F) (i j : nat) : F :=
  match i with
  | O => mul (at2 u1 O j) (at2 he O j)
  | S i' => sub (mul (at2 u1 i j) (at2 he i j)) (mul (at2 u1 i' j) (at2 hw i j))
  end.

Definition flux_y (v1 hn hs : Array F) (i j : nat) : F :=
  match j with
  | O => mul (at2 v1 i O) (at2 hn i O)
  | S j' => sub (mul (at2 v1 i j) (at2 hn i j)) (mul (at2 v1 i j') (at2 hs i j))
  end.

Definition next_eta (p : Constants F) (eta fx fy : Array F) (i j : nat) : F :=
  sub (at2 eta i j)
      (mul (dt p) (add (div (at2 fx i j) (dx p)) (div (at2 fy i j) (dy p)))).

(** The state after lines 249-254 (and after lines 234-242). *)
Definition with_velocities (p : Constants F) (nx ny : nat) (m : Machine F)
  : Machine F :=
  poke (poke m u_np1 (tab nx ny (next_u p nx (val m u_n) (val m eta_n))))
       v_np1 (tab nx ny (next_v p ny (val m v_n) (val m eta_n))).

(** The state after lines 260-270. *)
Definition with_depths (p : Constants F) (nx ny : nat) (m : Machine F)
  : Machine F :=
  poke (poke (poke (poke m
    h_e (tab nx ny (depth_e p nx (val m u_np1) (val m eta_n))))
    h_w (tab nx ny (depth_w p (val m u_np1) (val m eta_n))))
    h_n (tab nx ny (depth_n p ny (val m v_np1) (val m eta_n))))
    h_s (tab nx ny (depth_s p (val m v_np1) (val m eta_n))).

(** The state after lines 272-276. *)
Definition with_fluxes (nx ny : nat) (m : Machine F) : Machine F :=
  poke (poke m
    uhwe (tab nx ny (flux_x (val m u_np1) (val m h_e) (val m h_w))))
    vhns (tab nx ny (flux_y (val m v_np1) (val m h_n) (val m h_s))).

(** The state after line 280. *)
Definition with_eta (p : Constants F) (nx ny : nat) (m : Machine F) : Machine F :=
  poke m eta_np1 (tab nx ny (next_eta p (val m eta_n) (val m uhwe) (val m vhns))).

(** The state after lines 285-287. *)
Definition rotated (m : Machine F) : Machine F :=
  alloc (alloc (alloc m u_n (val m u_np1)) v_n (val m v_np1)) eta_n (val m eta_np1).

(** The state after lines 289-299. *)
Definition ticked (m : Machine F) : Machine F :=
  {| heap := heap m; env := env m; time_step := time_step m + 1;
     u_list := u_list m; v_list := v_list m; eta_list := eta_list m |}.

Definition sampled (p : Constants F) (m : Machine F) : Machine F :=
  if Z.eqb (time_step m mod anim_interval p) 0
  then {| heap := heap m; env := env m; time_step := time_step m;
          u_list := u_list m ++ [env m u_n];
          v_list := v_list m ++ [env m v_n];
          eta_list := eta_list m ++ [env m eta_n] |}
  else m.

(** The state after one run of the loop body. *)
Definition stepped (p : Constants F) (nx ny : nat) (m : Machine F) : Machine F :=
  sampled p (ticked (rotated (with_eta p nx ny (with_fluxes nx ny
    (with_depths p nx ny (with_velocities p nx ny m)))))).

End ClosedForms.

(** ** A small run over the rationals

    A 2 by 2 grid with [max_time_step = 3] and a sample every 2 steps. *)
Definition demo_constants : Constants Qc :=
  {| g := Q2Qc 10; H := Q2Qc 100; dx := Q2Qc 1; dy := Q2Qc 1;
     dt := Q2Qc (1 # 100); max_time_step := 3; anim_interval := 2 |}.

Definition demo_eta : Array Qc :=
  [[Q2Qc 1; Q2Qc 2]; [Q2Qc 0; Q2Qc 3]].

Definition demo_state : Machine Qc := start 2 2 demo_eta.

(** ** Whole runs *)
Section Runs.
Context {F : Type} {SF : Scalar F}.

(** The state after [n] runs of the loop body. *)
Definition steps (p : Constants F) (nx ny n : nat) (m : Machine F) : Machine F :=
  Nat.iter n (stepped p nx ny) m.

(** The runs of the body (numbered from 1) that end on a sample, for a
    counter that starts at [t0]: run [j] leaves [time_step = t0 + j]. *)
Definition sampled_runs (p : Constants F) (t0 : Z) (n : nat) : list nat :=
  filter (fun j => (t0 + Z.of_nat j) mod anim_interval p = 0)%Z (seq 1 n).

(** [np.full((nx, ny), c)]: the array with every entry [c]. *)
Definition full (nx ny : nat) (c : F) : Array F := replicate nx (replicate ny c).

End Runs.

(** The arrays [X] and [Y] of lines 151-162. *)
Definition mesh (c : Config) : option (Array R * Array R) :=
  x ← linspace (- Cfg.L_x c / 2) (Cfg.L_x c / 2) (Cfg.N_x c);
  y ← linspace (- Cfg.L_y c / 2) (Cfg.L_y c / 2) (Cfg.N_y c);
  let XY := meshgrid x y in
  Some (transpose XY.1, transpose XY.2).

Section Symmetry.
Context {F : Type} {SF : Scalar F}.

(** [B] is [A] with its two axes exchanged: [B[j, i] = A[i, j]]. *)
Definition mirrored (nx ny : nat) (A B : Array F) : Prop :=
  forall i j, (i < nx)%nat -> (j < ny)%nat -> at2 B j i = at2 A i j.

(** The constants with [dx] and [dy] exchanged. *)
Definition swap_axes (p : Constants F) : Constants F :=
  {| g := g p; H := H p; dx := dy p; dy := dx p; dt := dt p;
     max_time_step := max_time_step p; anim_interval := anim_interval p |}.

End Symmetry.

(** * Facts on tabulated arrays *)

Section Tab1Facts.
Context {X : Type}.
Implicit Types (f : nat -> X) (l : list X).

Lemma length_tab1 n f : length (tab1 n f) = n.
Proof. unfold tab1. by rewrite length_fmap, length_seq. Qed.

Lemma lookup_tab1 n f i : (i < n)%nat -> tab1 n f !! i = Some (f i).
Proof.
  intros Hi. unfold tab1. by rewrite list_lookup_fmap, lookup_seq_lt.
Qed.

Lemma eq_tab1 n f l :
  length l = n -> (forall i, (i < n)%nat -> l !! i = Some (f i)) -> l = tab1 n f.
Proof.
  intros Hlen Hl. apply list_eq. intros i.
  destruct (decide (i < n)%nat) as [Hi | Hi].
  - by rewrite Hl, lookup_tab1.
  - rewrite !lookup_ge_None_2; [done | rewrite length_tab1; lia | lia].
Qed.

Lemma tab1_ext n f f' :
  (forall i, (i < n)%nat -> f i = f' i) -> tab1 n f = tab1 n f'.
Proof.
  intros Hf. apply eq_tab1; [apply length_tab1 |].
  intros i Hi. rewrite lookup_tab1 by done. f_equal. by apply Hf.
Qed.

Lemma tab1_of_list (d : X) l : l = tab1 (length l) (fun i => nth i l d).
Proof.
  apply eq_tab1; [done |]. intros i Hi.
  destruct (nth_lookup_or_length l i d) as [Heq | Hge]; [done | lia].
Qed.

Lemma init1_tab1 n f : init1 (tab1 n f) = tab1 (n - 1) f.
Proof.
  unfold init1. rewrite length_tab1. apply eq_tab1.
  - rewrite length_take, length_tab1. lia.
  - intros i Hi. rewrite lookup_take_lt by done. apply lookup_tab1. lia.
Qed.

Lemma tail1_tab1 n f : tail1 (tab1 n f) = tab1 (n - 1) (fun i => f (S i)).
Proof.
  unfold tail1. apply eq_tab1.
  - rewrite length_drop, length_tab1. lia.
  - intros i Hi. rewrite lookup_drop. apply lookup_tab1. lia.
Qed.

Lemma head_tab1 n f : (0 < n)%nat -> head (tab1 n f) = Some (f 0%nat).
Proof. intros Hn. rewrite head_lookup. by apply lookup_tab1. Qed.

Lemma last_tab1 n f : (0 < n)%nat -> last (tab1 n f) = Some (f (n - 1)%nat).
Proof.
  intros Hn. rewrite last_lookup, length_tab1.
  replace (Nat.pred n) with (n - 1)%nat by lia. apply lookup_tab1. lia.
Qed.

Lemma tab1_snoc n f : tab1 n f ++ [f n] = tab1 (S n) f.
Proof. unfold tab1. by rewrite seq_S, fmap_app. Qed.

Lemma tab1_cons n f : f 0%nat :: tab1 n (fun i => f (S i)) = tab1 (S n) f.
Proof.
  unfold tab1. simpl. f_equal. by rewrite <- fmap_S_seq, <- list_fmap_compose.
Qed.

End Tab1Facts.

Section Tab1Maps.
Context {X Y Z : Type}.

Lemma fmap_tab1 (h : X -> Y) n (f : nat -> X) :
  h <$> tab1 n f = tab1 n (fun i => h (f i)).
Proof. unfold tab1. by rewrite <- list_fmap_compose. Qed.

Lemma zip_with_tab1 (h : X -> Y -> Z) n (a : nat -> X) (b : nat -> Y) :
  zip_with h (tab1 n a) (tab1 n b) = tab1 n (fun i => h (a i) (b i)).
Proof.
  unfold tab1. by rewrite zip_with_fmap_l, zip_with_fmap_r, zip_with_diag.
Qed.

Lemma same_len_tab1 n (a : nat -> X) (b : nat -> Y) :
  same_len (tab1 n a) (tab1 n b) = true.
Proof. unfold same_len. rewrite !length_tab1. apply Nat.eqb_refl. Qed.

Lemma ew1_tab1 (h : X -> Y -> Z) n (a : nat -> X) (b : nat -> Y) :
  ew1 h (tab1 n a) (tab1 n b) = Some (tab1 n (fun i => h (a i) (b i))).
Proof. unfold ew1. by rewrite same_len_tab1, zip_with_tab1. Qed.

Lemma mapM_tab1 (h : X -> option Y) n (a : nat -> X) (b : nat -> Y) :
  (forall i, (i < n)%nat -> h (a i) = Some (b i)) ->
  mapM h (tab1 n a) = Some (tab1 n b).
Proof.
  intros Hh. apply mapM_Some. unfold tab1.
  apply Forall2_fmap, Forall_Forall2_diag, Forall_forall.
  intros i Hi%list_elem_of_In%in_seq. apply Hh. lia.
Qed.

End Tab1Maps.

Section TabMaps.
Context {X Y Z : Type}.

Lemma same_shape_tab nx ny (a : nat -> nat -> X) (b : nat -> nat -> Y) :
  same_shape (tab nx ny a) (tab nx ny b) = true.
Proof.
  unfold tab, tab1 at 1 3. generalize (seq 0 nx). intros l.
  induction l as [| i l IH]; csimpl; [done |].
  rewrite IH, andb_true_r. apply same_len_tab1.
Qed.

Lemma ew2_tab (h : X -> Y -> Z) nx ny (a : nat -> nat -> X) (b : nat -> nat -> Y) :
  ew2 h (tab nx ny a) (tab nx ny b) = Some (tab nx ny (fun i j => h (a i j) (b i j))).
Proof.
  unfold ew2. rewrite same_shape_tab. f_equal. unfold tab.
  rewrite zip_with_tab1. apply tab1_ext. intros i _. apply zip_with_tab1.
Qed.

Lemma map_map_tab (h : X -> Y) nx ny (a : nat -> nat -> X) :
  map (map h) (tab nx ny a) = tab nx ny (fun i j => h (a i j)).
Proof.
  unfold tab. change (map (map h)) with (fmap (M := list) (fmap (M := list) h)).
  rewrite fmap_tab1. apply tab1_ext. intros i _. apply fmap_tab1.
Qed.

End TabMaps.

Section TabFacts.
Context {X : Type}.
Implicit Types (a b : nat -> nat -> X).

Lemma tab_ext nx ny a b :
  (forall i j, (i < nx)%nat -> (j < ny)%nat -> a i j = b i j) ->
  tab nx ny a = tab nx ny b.
Proof.
  intros Hab. unfold tab. apply tab1_ext. intros i Hi.
  apply tab1_ext. intros j Hj. by apply Hab.
Qed.

Lemma shaped_tab nx ny a : shaped nx ny (tab nx ny a).
Proof.
  split; [apply length_tab1 |]. unfold tab, tab1.
  apply Forall_fmap, Forall_forall. intros i _. simpl.
  by rewrite length_fmap, length_seq.
Qed.

Lemma rows_init_tab nx ny a : rows_init (tab nx ny a) = tab (nx - 1) ny a.
Proof. apply init1_tab1. Qed.

Lemma rows_tail_tab nx ny a :
  rows_tail (tab nx ny a) = tab (nx - 1) ny (fun i j => a (S i) j).
Proof. apply (tail1_tab1 nx (fun i => tab1 ny (a i))). Qed.

Lemma cols_init_tab nx ny a : cols_init (tab nx ny a) = tab nx (ny - 1) a.
Proof.
  unfold cols_init, tab. change (map init1) with (fmap (M := list) (@init1 X)).
  rewrite fmap_tab1. apply tab1_ext. intros i _. apply init1_tab1.
Qed.

Lemma cols_tail_tab nx ny a :
  cols_tail (tab nx ny a) = tab nx (ny - 1) (fun i j => a i (S j)).
Proof.
  unfold cols_tail, tab. change (map tail1) with (fmap (M := list) (@tail1 X)).
  rewrite fmap_tab1. apply tab1_ext. intros i _. apply tail1_tab1.
Qed.

Lemma row_first_tab nx ny a :
  (0 < nx)%nat -> row_first (tab nx ny a) = Some (tab1 ny (a 0%nat)).
Proof. intros Hn. unfold row_first, tab. by rewrite head_tab1. Qed.

Lemma row_last_tab nx ny a :
  (0 < nx)%nat -> row_last (tab nx ny a) = Some (tab1 ny (a (nx - 1)%nat)).
Proof. intros Hn. unfold row_last, tab. by rewrite last_tab1. Qed.

Lemma col_first_tab nx ny a :
  (0 < ny)%nat -> col_first (tab nx ny a) = Some (tab1 nx (fun i => a i 0%nat)).
Proof.
  intros Hn. unfold col_first, tab. apply mapM_tab1.
  intros i _. by apply head_tab1.
Qed.

Lemma col_last_tab nx ny a :
  (0 < ny)%nat ->
  col_last (tab nx ny a) = Some (tab1 nx (fun i => a i (ny - 1)%nat)).
Proof.
  intros Hn. unfold col_last, tab. apply mapM_tab1.
  intros i _. by apply last_tab1.
Qed.

End TabFacts.

(** * Slice assignments on tabulated arrays *)

Section Tab1Updates.
Context {X : Type}.
Implicit Types (a b : nat -> X).

Lemma app_drop_tab1 n a b :
  tab1 (n - 1) b ++ drop (n - 1) (tab1 n a)
  = tab1 n (fun i => if (i <? n - 1)%nat then b i else a i).
Proof.
  apply eq_tab1.
  - rewrite length_app, length_drop, !length_tab1. lia.
  - intros i Hi. destruct (Nat.ltb_spec i (n - 1)) as [Hlt | Hge].
    + rewrite lookup_app_l by (rewrite length_tab1; lia). by apply lookup_tab1.
    + rewrite lookup_app_r by (rewrite length_tab1; lia).
      rewrite lookup_drop, length_tab1. rewrite lookup_tab1 by lia.
      do 2 f_equal. lia.
Qed.

Lemma take_app_tab1 n a b :
  take 1 (tab1 n a) ++ tab1 (n - 1) b
  = tab1 n (fun i => match i with O => a O | S i' => b i' end).
Proof.
  destruct n as [| n]; [done |].
  rewrite <- (tab1_cons n (fun i => match i with O => a O | S i' => b i' end)).
  rewrite <- (tab1_cons n a). simpl. by rewrite Nat.sub_0_r.
Qed.

Lemma init_snoc_tab1 n a x :
  (0 < n)%nat ->
  init1 (tab1 n a) ++ [x] = tab1 n (fun i => if (i =? n - 1)%nat then x else a i).
Proof.
  intros Hn. rewrite init1_tab1. destruct n as [| n]; [lia |].
  replace (S n - 1)%nat with n by lia.
  rewrite <- (tab1_snoc n (fun i => if (i =? n)%nat then x else a i)).
  rewrite Nat.eqb_refl. f_equal. apply tab1_ext. intros i Hi.
  destruct (Nat.eqb_spec i n); [lia | done].
Qed.

Lemma replicate_tab1 n (x : X) : replicate n x = tab1 n (fun _ => x).
Proof.
  apply eq_tab1; [apply length_replicate |].
  intros i Hi. by apply lookup_replicate_2.
Qed.

End Tab1Updates.

Section ArrayFacts.
Context {F : Type} {SF : Scalar F}.
Implicit Types (a b : nat -> nat -> F) (A B : Array F).

Lemma at2_tab nx ny a i j :
  (i < nx)%nat -> (j < ny)%nat -> at2 (tab nx ny a) i j = a i j.
Proof.
  intros Hi Hj. unfold at2, tab. rewrite lookup_tab1 by done.
  change (default zero (tab1 ny (a i) !! j) = a i j). by rewrite lookup_tab1.
Qed.

Lemma tab_of_shaped nx ny A : shaped nx ny A -> A = tab nx ny (at2 A).
Proof.
  intros [Hlen Hrows]. apply eq_tab1; [done |]. intros i Hi.
  destruct (lookup_lt_is_Some_2 A i) as [r Hr]; [lia |].
  rewrite Hr. f_equal. apply eq_tab1.
  - by apply (Forall_lookup_1 _ _ _ _ Hrows Hr).
  - intros j Hj. unfold at2. rewrite Hr. simpl.
    destruct (lookup_lt_is_Some_2 r j) as [x Hx].
    + rewrite (Forall_lookup_1 _ _ _ _ Hrows Hr). lia.
    + by rewrite Hx.
Qed.

Lemma zeros_tab nx ny : zeros nx ny = tab nx ny (fun _ _ => zero).
Proof.
  unfold zeros, tab. rewrite replicate_tab1. apply tab1_ext. intros i _.
  apply replicate_tab1.
Qed.

Lemma smul_tab c nx ny a :
  smul c (tab nx ny a) = tab nx ny (fun i j => mul c (a i j)).
Proof. apply map_map_tab. Qed.

Lemma adds_tab c nx ny a :
  adds (tab nx ny a) c = tab nx ny (fun i j => add (a i j) c).
Proof. apply (map_map_tab (fun x => add x c)). Qed.

Lemma divs_tab c nx ny a :
  divs (tab nx ny a) c = tab nx ny (fun i j => div (a i j) c).
Proof. apply (map_map_tab (fun x => div x c)). Qed.

Lemma gts_tab c nx ny a :
  gts (tab nx ny a) c = tab nx ny (fun i j => gtb (a i j) c).
Proof. apply (map_map_tab (fun x => gtb x c)). Qed.

Lemma adds1_tab1 c n (r : nat -> F) :
  adds1 (tab1 n r) c = tab1 n (fun i => add (r i) c).
Proof. apply (fmap_tab1 (fun x => add x c)). Qed.

Lemma where_tab nx ny (c : nat -> nat -> bool) a b :
  where_ (tab nx ny c) (tab nx ny a) (tab nx ny b)
  = Some (tab nx ny (fun i j => if c i j then a i j else b i j)).
Proof. unfold where_. rewrite ew2_tab. simpl. by rewrite ew2_tab. Qed.

Lemma set_rows_init_tab nx ny a b :
  set_rows_init (tab nx ny a) (tab (nx - 1) ny b)
  = Some (tab nx ny (fun i j => if (i <? nx - 1)%nat then b i j else a i j)).
Proof.
  unfold set_rows_init. rewrite rows_init_tab, same_shape_tab. f_equal.
  unfold tab. rewrite length_tab1, app_drop_tab1. apply tab1_ext.
  intros i _. by destruct (i <? nx - 1)%nat.
Qed.

Lemma set_rows_tail_tab nx ny a b :
  set_rows_tail (tab nx ny a) (tab (nx - 1) ny b)
  = Some (tab nx ny (fun i j => match i with O => a O j | S i' => b i' j end)).
Proof.
  unfold set_rows_tail. rewrite rows_tail_tab, same_shape_tab. f_equal.
  unfold tab. rewrite take_app_tab1. apply tab1_ext.
  intros i _. by destruct i.
Qed.

Lemma set_cols_init_tab nx ny a b :
  set_cols_init (tab nx ny a) (tab nx (ny - 1) b)
  = Some (tab nx ny (fun i j => if (j <? ny - 1)%nat then b i j else a i j)).
Proof.
  unfold set_cols_init. rewrite cols_init_tab, same_shape_tab. f_equal.
  unfold tab. rewrite zip_with_tab1. apply tab1_ext.
  intros i _. by rewrite length_tab1, app_drop_tab1.
Qed.

Lemma set_cols_tail_tab nx ny a b :
  set_cols_tail (tab nx ny a) (tab nx (ny - 1) b)
  = Some (tab nx ny (fun i j => match j with O => a i O | S j' => b i j' end)).
Proof.
  unfold set_cols_tail. rewrite cols_tail_tab, same_shape_tab. f_equal.
  unfold tab. rewrite zip_with_tab1. apply tab1_ext.
  intros i _. by rewrite take_app_tab1.
Qed.

Lemma set_row_first_tab nx ny a (r : nat -> F) :
  (0 < nx)%nat ->
  set_row_first (tab nx ny a) (tab1 ny r)
  = Some (tab nx ny (fun i j => match i with O => r j | S _ => a i j end)).
Proof.
  intros Hn. destruct nx as [| nx]; [lia |]. unfold tab.
  rewrite <- (tab1_cons nx (fun i => tab1 ny (a i))). simpl.
  rewrite same_len_tab1. f_equal.
  by rewrite <- (tab1_cons nx (fun i => tab1 ny
                   (fun j => match i with O => r j | S _ => a i j end))).
Qed.

Lemma set_row_last_tab nx ny a (r : nat -> F) :
  (0 < nx)%nat ->
  set_row_last (tab nx ny a) (tab1 ny r)
  = Some (tab nx ny (fun i j => if (i =? nx - 1)%nat then r j else a i j)).
Proof.
  intros Hn. unfold set_row_last.
  pose proof (row_last_tab nx ny a Hn) as Hl. unfold row_last in Hl.
  rewrite Hl. simpl. rewrite same_len_tab1. f_equal. unfold rows_init, tab.
  rewrite init_snoc_tab1 by done. apply tab1_ext.
  intros i _. by destruct (i =? nx - 1)%nat.
Qed.

Lemma set_col_first_tab nx ny a (c : nat -> F) :
  (0 < ny)%nat ->
  set_col_first (tab nx ny a) (tab1 nx c)
  = Some (tab nx ny (fun i j => match j with O => c i | S _ => a i j end)).
Proof.
  intros Hn. unfold set_col_first. unfold tab at 1. rewrite same_len_tab1.
  unfold tab. rewrite zip_with_tab1. apply mapM_tab1.
  intros i _. simpl. destruct ny as [| ny]; [lia |].
  rewrite <- (tab1_cons ny (a i)).
  by rewrite <- (tab1_cons ny (fun j => match j with O => c i | S _ => a i j end)).
Qed.

Lemma set_col_last_tab nx ny a (c : nat -> F) :
  (0 < ny)%nat ->
  set_col_last (tab nx ny a) (tab1 nx c)
  = Some (tab nx ny (fun i j => if (j =? ny - 1)%nat then c i else a i j)).
Proof.
  intros Hn. unfold set_col_last. unfold tab at 1. rewrite same_len_tab1.
  unfold tab. rewrite zip_with_tab1. apply mapM_tab1.
  intros i _. simpl. rewrite init_snoc_tab1 by done.
  destruct ny as [| ny]; [lia |]. by rewrite <- (tab1_cons ny (a i)).
Qed.

Lemma fill_row_last_tab nx ny a c :
  (0 < nx)%nat ->
  fill_row_last (tab nx ny a) c
  = Some (tab nx ny (fun i j => if (i =? nx - 1)%nat then c else a i j)).
Proof.
  intros Hn. unfold fill_row_last.
  pose proof (row_last_tab nx ny a Hn) as Hl. unfold row_last in Hl.
  rewrite Hl. simpl. rewrite length_tab1, replicate_tab1.
  by apply set_row_last_tab.
Qed.

Lemma fill_col_last_tab nx ny a c :
  (0 < ny)%nat ->
  fill_col_last (tab nx ny a) c
  = Some (tab nx ny (fun i j => if (j =? ny - 1)%nat then c else a i j)).
Proof.
  intros Hn. unfold fill_col_last. unfold tab at 2. rewrite length_tab1.
  rewrite replicate_tab1. by apply set_col_last_tab.
Qed.

Lemma set_all_tab nx ny a b :
  set_all (tab nx ny a) (tab nx ny b) = Some (tab nx ny b).
Proof. unfold set_all. by rewrite same_shape_tab. Qed.

End ArrayFacts.

(** * The interpreter on well-formed states *)

Section MachineFacts.
Context {F : Type} {SF : Scalar F}.
Implicit Types (m : Machine F) (x y : Var) (A : Array F).

Lemma WF_lookup nx ny m x : WF nx ny m -> heap m !! env m x = Some (val m x).
Proof. intros [_ Hm]. destruct (Hm x) as (A & HA & _). unfold val. by rewrite HA. Qed.

Lemma WF_shaped nx ny m x : WF nx ny m -> shaped nx ny (val m x).
Proof. intros [_ Hm]. destruct (Hm x) as (A & HA & Hs). unfold val. by rewrite HA. Qed.

Lemma WF_val_tab nx ny m x : WF nx ny m -> val m x = tab nx ny (at2 (val m x)).
Proof. intros Hm. eapply tab_of_shaped, WF_shaped, Hm. Qed.

Lemma WF_bound nx ny m x : WF nx ny m -> (env m x < length (heap m))%nat.
Proof. intros Hm. eapply lookup_lt_Some, WF_lookup, Hm. Qed.

Lemma val_poke_eq nx ny m x A : WF nx ny m -> val (poke m x A) x = A.
Proof.
  intros Hm. unfold val, poke. simpl.
  rewrite list_lookup_insert_eq; [done | eapply WF_bound, Hm].
Qed.

Lemma val_poke_ne nx ny m x y A :
  WF nx ny m -> x <> y -> val (poke m x A) y = val m y.
Proof.
  intros Hm Hxy. unfold val, poke. simpl.
  rewrite list_lookup_insert_ne; [done |].
  intros Heq. apply Hxy. by apply (proj1 Hm).
Qed.

Lemma WF_poke nx ny m x A : WF nx ny m -> shaped nx ny A -> WF nx ny (poke m x A).
Proof.
  intros Hm HA. split; [apply Hm |]. intros y.
  exists (val (poke m x A) y). split.
  - unfold val, poke. simpl. destruct (decide (x = y)) as [-> | Hne].
    + rewrite list_lookup_insert_eq; [done | eapply WF_bound, Hm].
    + rewrite list_lookup_insert_ne.
      * by rewrite (WF_lookup nx ny m y Hm).
      * intros Heq. apply Hne. by apply (proj1 Hm).
  - destruct (decide (x = y)) as [-> | Hne].
    + by rewrite (val_poke_eq nx ny).
    + rewrite (val_poke_ne nx ny) by done. by apply WF_shaped.
Qed.

Lemma poke_poke m x A B : poke (poke m x A) x B = poke m x B.
Proof. unfold poke. simpl. f_equal. apply list_insert_insert_eq. Qed.

Lemma poke_comm nx ny m x y A B :
  WF nx ny m -> x <> y -> poke (poke m x A) y B = poke (poke m y B) x A.
Proof.
  intros Hm Hxy. unfold poke. simpl. f_equal. apply list_insert_insert_ne.
  intros Heq. apply Hxy. by apply (proj1 Hm).
Qed.

Lemma assign_run {V : Type} nx ny (setter : Array F -> V -> option (Array F))
  x (e : Expr F V) m v A :
  WF nx ny m -> e m = Some v -> setter (val m x) v = Some A ->
  assign setter x e m = Some (poke m x A).
Proof.
  intros Hm He Hs. unfold assign. rewrite He. simpl.
  rewrite (WF_lookup nx ny m x Hm). simpl. by rewrite Hs.
Qed.

Lemma seq_run (s1 s2 : Stmt F) m m1 :
  s1 m = Some m1 -> (s1 ;;; s2) m = s2 m1.
Proof. intros H1. unfold seq_stmt. by rewrite H1. Qed.

Lemma rd_run nx ny m x : WF nx ny m -> rd x m = Some (val m x).
Proof. apply WF_lookup. Qed.

Lemma sl_run {X Y : Type} (f : X -> Y) (e : Expr F X) m v :
  e m = Some v -> sl f e m = Some (f v).
Proof. intros He. unfold sl. by rewrite He. Qed.

Lemma ix_run {X Y : Type} (f : X -> option Y) (e : Expr F X) m v w :
  e m = Some v -> f v = Some w -> ix f e m = Some w.
Proof. intros He Hf. unfold ix. by rewrite He. Qed.

Lemma op2_run {X Y Z : Type} (f : X -> Y -> option Z) (e1 : Expr F X)
  (e2 : Expr F Y) m a b c :
  e1 m = Some a -> e2 m = Some b -> f a b = Some c -> op2 f e1 e2 m = Some c.
Proof. intros H1 H2 Hf. unfold op2. rewrite H1, H2. by simpl. Qed.

Lemma np_where_run (c : Expr F (list (list bool))) (a b : Expr F (Array F))
  m C A B R :
  c m = Some C -> a m = Some A -> b m = Some B -> where_ C A B = Some R ->
  np_where c a b m = Some R.
Proof. intros Hc Ha Hb HR. unfold np_where. rewrite Hc, Ha, Hb. by simpl. Qed.

End MachineFacts.

(** * Symbolic runs of the phases of the loop body *)

Ltac solve_wf :=
  repeat (apply WF_poke; [| apply shaped_tab]); eassumption.

Ltac side := solve [ solve_wf | discriminate | assumption ].

Ltac norm_val nx ny :=
  repeat first
    [ rewrite (val_poke_eq nx ny) by side
    | rewrite (val_poke_ne nx ny) by side ].

Ltac norm_tab :=
  repeat first
    [ rewrite rows_init_tab | rewrite rows_tail_tab
    | rewrite cols_init_tab | rewrite cols_tail_tab
    | rewrite smul_tab | rewrite adds_tab | rewrite divs_tab | rewrite gts_tab
    | rewrite adds1_tab1
    | rewrite row_first_tab by assumption | rewrite row_last_tab by assumption
    | rewrite col_first_tab by assumption | rewrite col_last_tab by assumption
    | rewrite ew1_tab1 | rewrite ew2_tab | rewrite where_tab
    | rewrite set_rows_init_tab | rewrite set_rows_tail_tab
    | rewrite set_cols_init_tab | rewrite set_cols_tail_tab
    | rewrite set_row_first_tab by assumption
    | rewrite set_row_last_tab by assumption
    | rewrite set_col_first_tab by assumption
    | rewrite set_col_last_tab by assumption
    | rewrite fill_row_last_tab by assumption
    | rewrite fill_col_last_tab by assumption
    | rewrite set_all_tab ].

Section Phases.
Context {F : Type} {SF : Scalar F}.
Context (p : Constants F) (nx ny : nat) (m : Machine F).
Context (a : Var -> nat -> nat -> F).
Hypothesis Hm : WF nx ny m.
Hypothesis Hnx : (0 < nx)%nat.
Hypothesis Hny : (0 < ny)%nat.
Hypothesis Ha : forall x, val m x = tab nx ny (a x).

Ltac apply_fn := norm_val nx ny; rewrite ?Ha; norm_tab; reflexivity.

Ltac eval_expr :=
  lazymatch goal with
  | |- rd _ _ = Some _ => eapply rd_run; solve_wf
  | |- lit _ _ = Some _ => reflexivity
  | |- sl _ _ _ = Some _ => eapply sl_run; eval_expr
  | |- ix _ _ _ = Some _ => eapply ix_run; [eval_expr | apply_fn]
  | |- op2 _ _ _ _ = Some _ => eapply op2_run; [eval_expr | eval_expr | apply_fn]
  | |- np_where _ _ _ _ = Some _ =>
      eapply np_where_run; [eval_expr | eval_expr | eval_expr | apply_fn]
  | |- upwind _ _ _ _ _ = Some _ => unfold upwind; eval_expr
  end.

Ltac run_assign :=
  erewrite assign_run;
  [ cbn [mbind option_bind] | solve_wf | eval_expr | apply_fn ].

Ltac tab_eq :=
  apply tab_ext; intros i j Hi Hj;
  repeat match goal with
         | |- context [Nat.eqb ?x ?y] => destruct (Nat.eqb_spec x y)
         | |- context [Nat.ltb ?x ?y] => destruct (Nat.ltb_spec x y)
         | |- context [match ?k with O => _ | S _ => _ end] => is_var k; destruct k
         end;
  try lia; subst; rewrite ?at2_tab by lia; try reflexivity.

Lemma velocities_run :
  (momentum p ;;; boundary_v_then_u) m = Some (with_velocities p nx ny m).
Proof using All.
  unfold momentum, boundary_v_then_u, seq_stmt.
  do 4 run_assign.
  rewrite poke_poke, (poke_comm nx ny m u_np1 v_np1) by side.
  rewrite poke_poke, (poke_comm nx ny m v_np1 u_np1) by side.
  unfold with_velocities, next_u, next_v. rewrite !Ha.
  do 2 f_equal; [f_equal |]; tab_eq.
Qed.

Lemma pre_loop_run : pre_loop p m = Some (with_velocities p nx ny m).
Proof using All.
  unfold pre_loop, momentum, seq_stmt.
  do 4 run_assign.
  rewrite (poke_comm nx ny (poke m u_np1 _) v_np1 u_np1) by side.
  rewrite !poke_poke.
  unfold with_velocities, next_u, next_v. rewrite !Ha.
  do 2 f_equal; [f_equal |]; tab_eq.
Qed.

Lemma depths_run : upwind_depths p m = Some (with_depths p nx ny m).
Proof using All.
  unfold upwind_depths, seq_stmt.
  do 8 run_assign.
  rewrite !poke_poke.
  unfold with_depths, depth_e, depth_w, depth_n, depth_s, face_x, face_y.
  rewrite !Ha.
  do 2 f_equal; [f_equal; [f_equal; [f_equal |] |] |]; tab_eq.
Qed.

Lemma fluxes_run : fluxes m = Some (with_fluxes nx ny m).
Proof using All.
  unfold fluxes, seq_stmt.
  do 4 run_assign.
  rewrite !poke_poke.
  unfold with_fluxes, flux_x, flux_y. rewrite !Ha.
  do 2 f_equal; [f_equal |]; tab_eq.
Qed.

Lemma continuity_run : continuity_update p m = Some (with_eta p nx ny m).
Proof using All.
  unfold continuity_update.
  run_assign.
  unfold with_eta, next_eta. rewrite !Ha.
  do 2 f_equal; tab_eq.
Qed.

End Phases.

Section StepFacts.
Context {F : Type} {SF : Scalar F}.
Implicit Types (m : Machine F) (x y : Var) (A : Array F) (p : Constants F).

Lemma seq_assoc (s1 s2 s3 : Stmt F) m :
  ((s1 ;;; s2) ;;; s3) m = (s1 ;;; s2 ;;; s3) m.
Proof. unfold seq_stmt. by destruct (s1 m). Qed.

Lemma val_alloc_eq m x A : val (alloc m x A) x = A.
Proof.
  unfold val, alloc. simpl. rewrite decide_True by done.
  by rewrite lookup_app_r, Nat.sub_diag.
Qed.

Lemma val_alloc_ne nx ny m x y A :
  WF nx ny m -> x <> y -> val (alloc m x A) y = val m y.
Proof.
  intros Hm Hxy. unfold val, alloc. simpl. rewrite decide_False by done.
  rewrite lookup_app_l; [done | eapply WF_bound, Hm].
Qed.

Lemma WF_alloc nx ny m x A : WF nx ny m -> shaped nx ny A -> WF nx ny (alloc m x A).
Proof.
  intros Hm HA. split.
  - intros y z. unfold alloc. simpl.
    pose proof (WF_bound nx ny m y Hm). pose proof (WF_bound nx ny m z Hm).
    repeat case_decide; subst; try done; try lia. apply Hm.
  - intros y. exists (val (alloc m x A) y). split.
    + unfold val, alloc. simpl. case_decide.
      * by rewrite lookup_app_r, Nat.sub_diag.
      * rewrite lookup_app_l by (eapply WF_bound, Hm).
        by rewrite (WF_lookup nx ny m y Hm).
    + destruct (decide (x = y)) as [-> | Hne].
      * by rewrite val_alloc_eq.
      * rewrite (val_alloc_ne nx ny) by done. by apply WF_shaped.
Qed.

Lemma rebind_copy_run nx ny m x y :
  WF nx ny m -> rebind_copy x y m = Some (alloc m x (val m y)).
Proof. intros Hm. unfold rebind_copy. by rewrite (WF_lookup nx ny m y Hm). Qed.

Lemma rotate_run nx ny m : WF nx ny m -> rotate_state m = Some (rotated m).
Proof.
  intros Hm. unfold rotate_state, rotated.
  pose proof (WF_shaped nx ny m u_np1 Hm) as Hu.
  pose proof (WF_shaped nx ny m v_np1 Hm) as Hv.
  assert (WF nx ny (alloc m u_n (val m u_np1))) as H1 by by apply WF_alloc.
  assert (WF nx ny (alloc (alloc m u_n (val m u_np1)) v_n (val m v_np1))) as H2
    by by apply WF_alloc.
  erewrite seq_run by (eapply rebind_copy_run, Hm).
  erewrite seq_run by (eapply rebind_copy_run, H1).
  rewrite (val_alloc_ne nx ny m) by done.
  erewrite rebind_copy_run by exact H2.
  rewrite (val_alloc_ne nx ny _ v_n) by done.
  by rewrite (val_alloc_ne nx ny m) by done.
Qed.

Lemma WF_rotated nx ny m : WF nx ny m -> WF nx ny (rotated m).
Proof.
  intros Hm. unfold rotated.
  repeat (apply WF_alloc; [| by apply WF_shaped]). done.
Qed.

Lemma sample_run p m : anim_interval p <> 0%Z -> sample p m = Some (sampled p m).
Proof.
  intros Hp. unfold sample, sampled.
  destruct (Z.eqb_spec (anim_interval p) 0); [done |].
  by destruct (time_step m mod anim_interval p =? 0)%Z.
Qed.

Lemma val_ticked m x : val (ticked m) x = val m x.
Proof. done. Qed.

Lemma val_sampled p m x : val (sampled p m) x = val m x.
Proof. unfold sampled. by destruct (_ =? 0)%Z. Qed.

Lemma WF_ticked nx ny m : WF nx ny m -> WF nx ny (ticked m).
Proof. done. Qed.

Lemma WF_sampled nx ny p m : WF nx ny m -> WF nx ny (sampled p m).
Proof. unfold sampled. by destruct (_ =? 0)%Z. Qed.

Lemma WF_with_velocities nx ny p m :
  WF nx ny m -> WF nx ny (with_velocities p nx ny m).
Proof. intros Hm. unfold with_velocities. solve_wf. Qed.

Lemma WF_with_depths nx ny p m : WF nx ny m -> WF nx ny (with_depths p nx ny m).
Proof. intros Hm. unfold with_depths. solve_wf. Qed.

Lemma WF_with_fluxes nx ny m : WF nx ny m -> WF nx ny (with_fluxes nx ny m).
Proof. intros Hm. unfold with_fluxes. solve_wf. Qed.

Lemma WF_with_eta nx ny p m : WF nx ny m -> WF nx ny (with_eta p nx ny m).
Proof. intros Hm. unfold with_eta. solve_wf. Qed.

Lemma WF_stepped nx ny p m : WF nx ny m -> WF nx ny (stepped p nx ny m).
Proof.
  intros Hm. unfold stepped.
  by apply WF_sampled, WF_ticked, WF_rotated, WF_with_eta, WF_with_fluxes,
    WF_with_depths, WF_with_velocities.
Qed.

(** One run of the body on a well-formed state raises nothing and leaves
    the closed forms. *)
Lemma loop_body_run nx ny p m :
  WF nx ny m -> (0 < nx)%nat -> (0 < ny)%nat -> anim_interval p <> 0%Z ->
  loop_body p m = Some (stepped p nx ny m).
Proof.
  intros Hm Hnx Hny Hp. unfold loop_body, stepped.
  pose proof (WF_with_velocities nx ny p m Hm) as H1.
  pose proof (WF_with_depths nx ny p _ H1) as H2.
  pose proof (WF_with_fluxes nx ny _ H2) as H3.
  pose proof (WF_with_eta nx ny p _ H3) as H4.
  rewrite <- seq_assoc.
  erewrite seq_run
    by (eapply (velocities_run p nx ny m (fun x => at2 (val m x))); try done;
        intros x; by apply WF_val_tab).
  erewrite seq_run
    by (eapply (depths_run p nx ny _ (fun x => at2 (val _ x))); try done;
        intros x; by apply WF_val_tab).
  erewrite seq_run
    by (eapply (fluxes_run p nx ny _ (fun x => at2 (val _ x))); try done;
        intros x; by apply WF_val_tab).
  erewrite seq_run
    by (eapply (continuity_run p nx ny _ (fun x => at2 (val _ x))); try done;
        intros x; by apply WF_val_tab).
  erewrite seq_run by (eapply rotate_run, H4).
  erewrite seq_run by reflexivity.
  by apply sample_run.
Qed.

End StepFacts.

Section SteppedValues.
Context {F : Type} {SF : Scalar F}.
Context (p : Constants F) (nx ny : nat) (m : Machine F).
Hypothesis Hm : WF nx ny m.

Lemma val_with_velocities x :
  val (with_velocities p nx ny m) x =
  match x with
  | u_np1 => tab nx ny (next_u p nx (val m u_n) (val m eta_n))
  | v_np1 => tab nx ny (next_v p ny (val m v_n) (val m eta_n))
  | _ => val m x
  end.
Proof using Hm. unfold with_velocities. destruct x; by norm_val nx ny. Qed.

Lemma val_with_depths x :
  val (with_depths p nx ny m) x =
  match x with
  | h_e => tab nx ny (depth_e p nx (val m u_np1) (val m eta_n))
  | h_w => tab nx ny (depth_w p (val m u_np1) (val m eta_n))
  | h_n => tab nx ny (depth_n p ny (val m v_np1) (val m eta_n))
  | h_s => tab nx ny (depth_s p (val m v_np1) (val m eta_n))
  | _ => val m x
  end.
Proof using Hm. unfold with_depths. destruct x; by norm_val nx ny. Qed.

Lemma val_with_fluxes x :
  val (with_fluxes nx ny m) x =
  match x with
  | uhwe => tab nx ny (flux_x (val m u_np1) (val m h_e) (val m h_w))
  | vhns => tab nx ny (flux_y (val m v_np1) (val m h_n) (val m h_s))
  | _ => val m x
  end.
Proof using Hm. unfold with_fluxes. destruct x; by norm_val nx ny. Qed.

Lemma val_with_eta x :
  val (with_eta p nx ny m) x =
  match x with
  | eta_np1 => tab nx ny (next_eta p (val m eta_n) (val m uhwe) (val m vhns))
  | _ => val m x
  end.
Proof using Hm. unfold with_eta. destruct x; by norm_val nx ny. Qed.

Lemma val_rotated x :
  val (rotated m) x =
  match x with
  | u_n => val m u_np1
  | v_n => val m v_np1
  | eta_n => val m eta_np1
  | _ => val m x
  end.
Proof using Hm.
  unfold rotated.
  pose proof (WF_shaped nx ny m u_np1 Hm) as Hu.
  pose proof (WF_shaped nx ny m v_np1 Hm) as Hv.
  assert (WF nx ny (alloc m u_n (val m u_np1))) as H1 by by apply WF_alloc.
  assert (WF nx ny (alloc (alloc m u_n (val m u_np1)) v_n (val m v_np1))) as H2
    by by apply WF_alloc.
  destruct x;
    repeat first [ rewrite val_alloc_eq
                 | rewrite (val_alloc_ne nx ny) by done ]; done.
Qed.

End SteppedValues.

Section SteppedAll.
Context {F : Type} {SF : Scalar F}.
Context (p : Constants F) (nx ny : nat) (m : Machine F).
Hypothesis Hm : WF nx ny m.

(** The contents of every array after one run of the body. *)
Lemma stepped_values :
  let m' := stepped p nx ny m in
  val m' u_np1 = tab nx ny (next_u p nx (val m u_n) (val m eta_n)) /\
  val m' v_np1 = tab nx ny (next_v p ny (val m v_n) (val m eta_n)) /\
  val m' h_e = tab nx ny (depth_e p nx (val m' u_np1) (val m eta_n)) /\
  val m' h_w = tab nx ny (depth_w p (val m' u_np1) (val m eta_n)) /\
  val m' h_n = tab nx ny (depth_n p ny (val m' v_np1) (val m eta_n)) /\
  val m' h_s = tab nx ny (depth_s p (val m' v_np1) (val m eta_n)) /\
  val m' uhwe = tab nx ny (flux_x (val m' u_np1) (val m' h_e) (val m' h_w)) /\
  val m' vhns = tab nx ny (flux_y (val m' v_np1) (val m' h_n) (val m' h_s)) /\
  val m' eta_np1
    = tab nx ny (next_eta p (val m eta_n) (val m' uhwe) (val m' vhns)) /\
  val m' u_n = val m' u_np1 /\
  val m' v_n = val m' v_np1 /\
  val m' eta_n = val m' eta_np1.
Proof using Hm.
  pose proof (WF_with_velocities nx ny p m Hm) as H1.
  pose proof (WF_with_depths nx ny p _ H1) as H2.
  pose proof (WF_with_fluxes nx ny _ H2) as H3.
  pose proof (WF_with_eta nx ny p _ H3) as H4.
  assert (forall x, val (stepped p nx ny m) x
                    = val (rotated (with_eta p nx ny (with_fluxes nx ny
                        (with_depths p nx ny (with_velocities p nx ny m))))) x)
    as Hv by (intros x; unfold stepped; by rewrite val_sampled, val_ticked).
  cbv zeta. rewrite !Hv.
  rewrite !(val_rotated nx ny _ H4).
  rewrite !(val_with_eta p nx ny _ H3).
  rewrite !(val_with_fluxes nx ny _ H2).
  rewrite !(val_with_depths p nx ny _ H1).
  rewrite !(val_with_velocities p nx ny _ Hm).
  repeat split; reflexivity.
Qed.

End SteppedAll.

(** * The claims on one run of the body *)

Section StepTheorems.
Context {F : Type} {SF : Scalar F}.
Implicit Types (m : Machine F) (p : Constants F).

(** C1.  One run of the loop body, from any well-formed state, leaves in
    [u_np1] (and in its copy [u_n]) the entries
    [u_n[i,j] - (g*dt/dx)*(eta_n[i+1,j] - eta_n[i,j])] for [i < N_x - 1], and
    in [v_np1] (and [v_n]) the entries
    [v_n[i,j] - (g*dt/dy)*(eta_n[i,j+1] - eta_n[i,j])] for [j < N_y - 1]:
    no other term enters the update. *)
Theorem momentum_predictor p nx ny m :
  WF nx ny m -> (0 < nx)%nat -> (0 < ny)%nat -> anim_interval p <> 0%Z ->
  exists m', loop_body p m = Some m' /\
    (forall i j, (i + 1 < nx)%nat -> (j < ny)%nat ->
       at2 (val m' u_np1) i j
       = sub (at2 (val m u_n) i j)
             (mul (div (mul (g p) (dt p)) (dx p))
                  (sub (at2 (val m eta_n) (i + 1) j) (at2 (val m eta_n) i j)))) /\
    (forall i j, (i < nx)%nat -> (j + 1 < ny)%nat ->
       at2 (val m' v_np1) i j
       = sub (at2 (val m v_n) i j)
             (mul (div (mul (g p) (dt p)) (dy p))
                  (sub (at2 (val m eta_n) i (j + 1)) (at2 (val m eta_n) i j)))) /\
    val m' u_n = val m' u_np1 /\ val m' v_n = val m' v_np1.
Proof.
  intros Hm Hnx Hny Hp. exists (stepped p nx ny m).
  split; [by apply loop_body_run |].
  destruct (stepped_values p nx ny m Hm)
    as (Hu & Hv & _ & _ & _ & _ & _ & _ & _ & Hun & Hvn & _).
  repeat split; [| | done | done].
  - intros i j Hi Hj. rewrite Hu, at2_tab by lia. unfold next_u.
    destruct (Nat.eqb_spec i (nx - 1)); [lia |]. by rewrite Nat.add_1_r.
  - intros i j Hi Hj. rewrite Hv, at2_tab by lia. unfold next_v.
    destruct (Nat.eqb_spec j (ny - 1)); [lia |]. by rewrite Nat.add_1_r.
Qed.

Lemma repeat_stmt_snoc (s : Stmt F) k m :
  repeat_stmt (S k) s m = (repeat_stmt k s ;;; s) m.
Proof.
  revert m. induction k as [| k IH]; intros m.
  - cbn [repeat_stmt]. unfold seq_stmt. cbn. destruct (s m); reflexivity.
  - change (repeat_stmt (S (S k)) s) with (s ;;; repeat_stmt (S k) s).
    change (repeat_stmt (S k) s) with (s ;;; repeat_stmt k s) at 2.
    rewrite seq_assoc.
    change ((s ;;; repeat_stmt (S k) s) m) with (s m ≫= repeat_stmt (S k) s).
    change ((s ;;; repeat_stmt k s ;;; s) m)
      with (s m ≫= (repeat_stmt k s ;;; s)).
    destruct (s m) as [m1 |]; [apply IH | done].
Qed.

Lemma time_step_stepped p nx ny m :
  time_step (stepped p nx ny m) = (time_step m + 1)%Z.
Proof. unfold stepped, sampled. by destruct (_ =? 0)%Z. Qed.

Lemma repeat_body_run p nx ny m k :
  WF nx ny m -> (0 < nx)%nat -> (0 < ny)%nat -> anim_interval p <> 0%Z ->
  exists mk, repeat_stmt k (loop_body p) m = Some mk /\ WF nx ny mk /\
             time_step mk = (time_step m + Z.of_nat k)%Z.
Proof.
  intros Hm Hnx Hny Hp. revert m Hm. induction k as [| k IH]; intros m Hm.
  - exists m. split; [done | split; [done | lia]].
  - destruct (IH (stepped p nx ny m)) as (mk & Hk & Hwf & Ht);
      [by apply WF_stepped |].
    exists mk. split; [| split; [done |]].
    + simpl. by erewrite seq_run by by apply (loop_body_run nx ny).
    + rewrite Ht, time_step_stepped. lia.
Qed.

(** C2.  After every completed step ([k + 1] runs of the body, for every
    [k]) the last row of [u_n] and the last column of [v_n] are zero:
    [u_n[-1, :]] is a row of [N_y] zeros, [v_n[:, -1]] a column of [N_x]. *)
Theorem boundary_invariant p nx ny m k :
  WF nx ny m -> (0 < nx)%nat -> (0 < ny)%nat -> anim_interval p <> 0%Z ->
  exists mk, repeat_stmt (S k) (loop_body p) m = Some mk /\
    row_last (val mk u_n) = Some (replicate ny zero) /\
    col_last (val mk v_n) = Some (replicate nx zero).
Proof.
  intros Hm Hnx Hny Hp.
  destruct (repeat_body_run p nx ny m k Hm Hnx Hny Hp) as (mk & Hk & Hwf & _).
  exists (stepped p nx ny mk). split.
  - rewrite repeat_stmt_snoc. erewrite seq_run by exact Hk.
    by apply loop_body_run.
  - destruct (stepped_values p nx ny mk Hwf)
      as (Hu & Hv & _ & _ & _ & _ & _ & _ & _ & Hun & Hvn & _).
    rewrite Hun, Hvn, Hu, Hv. split.
    + rewrite row_last_tab by done. f_equal. rewrite replicate_tab1.
      apply tab1_ext. intros j _. unfold next_u. by rewrite Nat.eqb_refl.
    + rewrite col_last_tab by done. f_equal. rewrite replicate_tab1.
      apply tab1_ext. intros i _. unfold next_v. by rewrite Nat.eqb_refl.
Qed.

(** C3.  After a run of the body, the depth at an interior x face,
    [h_e[i,j] = h_w[i+1,j]], is [eta_n + H] of cell [i] when the new
    [u_np1[i,j] > 0] and of cell [i+1] otherwise; so a face velocity equal
    to zero selects the east cell.  The same holds in y with [v_np1], [h_n],
    [h_s] and the north cell.  The faces on the edge of the domain take the
    depth of the adjacent cell. *)
Theorem upwind_interface_depth `{!StrictOrder0 F} p nx ny m :
  WF nx ny m -> (0 < nx)%nat -> (0 < ny)%nat -> anim_interval p <> 0%Z ->
  exists m', loop_body p m = Some m' /\
    let eta := val m eta_n in
    let u1 := val m' u_np1 in
    let v1 := val m' v_np1 in
    (forall i j, (i + 1 < nx)%nat -> (j < ny)%nat ->
       at2 (val m' h_e) i j
       = (if gtb (at2 u1 i j) zero then add (at2 eta i j) (H p)
          else add (at2 eta (i + 1) j) (H p)) /\
       at2 (val m' h_w) (i + 1) j = at2 (val m' h_e) i j /\
       (at2 u1 i j = zero -> at2 (val m' h_e) i j = add (at2 eta (i + 1) j) (H p))) /\
    (forall i j, (i < nx)%nat -> (j + 1 < ny)%nat ->
       at2 (val m' h_n) i j
       = (if gtb (at2 v1 i j) zero then add (at2 eta i j) (H p)
          else add (at2 eta i (j + 1)) (H p)) /\
       at2 (val m' h_s) i (j + 1) = at2 (val m' h_n) i j /\
       (at2 v1 i j = zero -> at2 (val m' h_n) i j = add (at2 eta i (j + 1)) (H p))) /\
    (forall j, (j < ny)%nat ->
       at2 (val m' h_e) (nx - 1) j = add (at2 eta (nx - 1) j) (H p) /\
       at2 (val m' h_w) 0 j = add (at2 eta 0 j) (H p)) /\
    (forall i, (i < nx)%nat ->
       at2 (val m' h_n) i (ny - 1) = add (at2 eta i (ny - 1)) (H p) /\
       at2 (val m' h_s) i 0 = add (at2 eta i 0) (H p)).
Proof.
  intros Hm Hnx Hny Hp. exists (stepped p nx ny m).
  split; [by apply loop_body_run |].
  destruct (stepped_values p nx ny m Hm)
    as (_ & _ & He & Hw & Hn & Hs & _).
  cbv zeta. rewrite He, Hw, Hn, Hs. clear He Hw Hn Hs.
  repeat split.
  - rewrite at2_tab by lia. unfold depth_e, face_x.
    destruct (Nat.eqb_spec i (nx - 1)); [lia |]. by rewrite Nat.add_1_r.
  - rewrite !at2_tab by lia. unfold depth_e, depth_w, face_x.
    destruct (Nat.eqb_spec i (nx - 1)); [lia |]. by rewrite Nat.add_1_r.
  - intros Hz. rewrite at2_tab by lia. unfold depth_e, face_x.
    destruct (Nat.eqb_spec i (nx - 1)); [lia |].
    by rewrite Hz, gtb_zero_zero, Nat.add_1_r.
  - rewrite at2_tab by lia. unfold depth_n, face_y.
    destruct (Nat.eqb_spec j (ny - 1)); [lia |]. by rewrite Nat.add_1_r.
  - rewrite !at2_tab by lia. unfold depth_n, depth_s, face_y.
    destruct (Nat.eqb_spec j (ny - 1)); [lia |]. by rewrite Nat.add_1_r.
  - intros Hz. rewrite at2_tab by lia. unfold depth_n, face_y.
    destruct (Nat.eqb_spec j (ny - 1)); [lia |].
    by rewrite Hz, gtb_zero_zero, Nat.add_1_r.
  - rewrite at2_tab by lia. unfold depth_e. by rewrite Nat.eqb_refl.
  - by rewrite at2_tab by lia.
  - rewrite at2_tab by lia. unfold depth_n. by rewrite Nat.eqb_refl.
  - by rewrite at2_tab by lia.
Qed.

(** C4.  After a run of the body,
    [eta_np1[i,j] = eta_n[i,j] - dt*(uhwe[i,j]/dx + vhns[i,j]/dy)] (and
    [eta_n] is its copy), with
    [uhwe[i,j] = u_np1[i,j]*h_e[i,j] - u_np1[i-1,j]*h_w[i,j]] for [i >= 1],
    [uhwe[0,j] = u_np1[0,j]*h_e[0,j]], and likewise [vhns] in y: no source
    or sink term. *)
Theorem continuity_step p nx ny m :
  WF nx ny m -> (0 < nx)%nat -> (0 < ny)%nat -> anim_interval p <> 0%Z ->
  exists m', loop_body p m = Some m' /\
    let u1 := val m' u_np1 in
    let v1 := val m' v_np1 in
    (forall i j, (i < nx)%nat -> (j < ny)%nat ->
       at2 (val m' eta_np1) i j
       = sub (at2 (val m eta_n) i j)
             (mul (dt p) (add (div (at2 (val m' uhwe) i j) (dx p))
                              (div (at2 (val m' vhns) i j) (dy p))))) /\
    (forall i j, (i + 1 < nx)%nat -> (j < ny)%nat ->
       at2 (val m' uhwe) (i + 1) j
       = sub (mul (at2 u1 (i + 1) j) (at2 (val m' h_e) (i + 1) j))
             (mul (at2 u1 i j) (at2 (val m' h_w) (i + 1) j))) /\
    (forall j, (j < ny)%nat ->
       at2 (val m' uhwe) 0 j = mul (at2 u1 0 j) (at2 (val m' h_e) 0 j)) /\
    (forall i j, (i < nx)%nat -> (j + 1 < ny)%nat ->
       at2 (val m' vhns) i (j + 1)
       = sub (mul (at2 v1 i (j + 1)) (at2 (val m' h_n) i (j + 1)))
             (mul (at2 v1 i j) (at2 (val m' h_s) i (j + 1)))) /\
    (forall i, (i < nx)%nat ->
       at2 (val m' vhns) i 0 = mul (at2 v1 i 0) (at2 (val m' h_n) i 0)) /\
    val m' eta_n = val m' eta_np1.
Proof.
  intros Hm Hnx Hny Hp. exists (stepped p nx ny m).
  split; [by apply loop_body_run |].
  destruct (stepped_values p nx ny m Hm)
    as (_ & _ & _ & _ & _ & _ & Hx & Hy & He & _ & _ & Hen).
  cbv zeta. repeat split; [| | | | | done].
  - intros i j Hi Hj. by rewrite He, at2_tab by lia.
  - intros i j Hi Hj. rewrite Hx at 1. rewrite at2_tab by lia.
    by rewrite Nat.add_1_r.
  - intros j Hj. rewrite Hx at 1. by rewrite at2_tab by lia.
  - intros i j Hi Hj. rewrite Hy at 1. rewrite at2_tab by lia.
    by rewrite Nat.add_1_r.
  - intros i Hi. rewrite Hy at 1. by rewrite at2_tab by lia.
Qed.

End StepTheorems.

(** * Sums *)

Section Sums.
Context {F : Type} {SF : Scalar F} {EF : ExactScalar F}.
Implicit Types (f g : nat -> F) (c : F).

Add Ring scalar_ring : (F_R scalar_field).

Lemma div_mul_inv (x y : F) : div x y = mul x (inv y).
Proof. apply (Fdiv_def scalar_field). Qed.

Lemma sum1_snoc (l : list F) x : sum1 (l ++ [x]) = add (sum1 l) x.
Proof.
  induction l as [| y l IH]; simpl.
  - unfold sum1. simpl. ring.
  - unfold sum1 in *. simpl. rewrite IH. ring.
Qed.

Lemma sum1_tab1_S n f : sum1 (tab1 (S n) f) = add (sum1 (tab1 n f)) (f n).
Proof. by rewrite <- tab1_snoc, sum1_snoc. Qed.

Lemma sum1_tab1_ext n f g :
  (forall i, (i < n)%nat -> f i = g i) -> sum1 (tab1 n f) = sum1 (tab1 n g).
Proof. intros Hfg. f_equal. by apply tab1_ext. Qed.

Lemma sum1_tab1_zero n : sum1 (tab1 n (fun _ => zero)) = zero.
Proof.
  induction n as [| n IH]; [done |]. rewrite sum1_tab1_S, IH. ring.
Qed.

Lemma sum1_tab1_add n f g :
  sum1 (tab1 n (fun i => add (f i) (g i)))
  = add (sum1 (tab1 n f)) (sum1 (tab1 n g)).
Proof.
  induction n as [| n IH]; [unfold tab1, sum1; simpl; ring |].
  rewrite !sum1_tab1_S, IH. ring.
Qed.

Lemma sum1_tab1_sub n f g :
  sum1 (tab1 n (fun i => sub (f i) (g i)))
  = sub (sum1 (tab1 n f)) (sum1 (tab1 n g)).
Proof.
  induction n as [| n IH]; [unfold tab1, sum1; simpl; ring |].
  rewrite !sum1_tab1_S, IH. ring.
Qed.

Lemma sum1_tab1_mul n c f :
  sum1 (tab1 n (fun i => mul c (f i))) = mul c (sum1 (tab1 n f)).
Proof.
  induction n as [| n IH]; [unfold tab1, sum1; simpl; ring |].
  rewrite !sum1_tab1_S, IH. ring.
Qed.

Lemma sum1_tab1_div n c f :
  sum1 (tab1 n (fun i => div (f i) c)) = div (sum1 (tab1 n f)) c.
Proof.
  induction n as [| n IH].
  - unfold tab1, sum1. simpl. rewrite div_mul_inv. ring.
  - rewrite !sum1_tab1_S, IH, !div_mul_inv. ring.
Qed.

(** A sum of differences of neighbours collapses to the last term. *)
Lemma sum1_telescope n (P : nat -> F) :
  sum1 (tab1 (S n) (fun i => match i with O => P O | S i' => sub (P i) (P i') end))
  = P n.
Proof.
  induction n as [| n IH].
  - unfold tab1, sum1. simpl. ring.
  - rewrite sum1_tab1_S, IH. ring.
Qed.

Lemma sum2_rows (A : Array F) : sum2 A = sum1 (sum1 <$> A).
Proof.
  induction A as [| r A IH]; [done |].
  change (sum2 (r :: A)) with (add (sum1 r) (sum2 A)). by rewrite IH.
Qed.

Lemma sum2_tab nx ny (a : nat -> nat -> F) :
  sum2 (tab nx ny a) = sum1 (tab1 nx (fun i => sum1 (tab1 ny (a i)))).
Proof. rewrite sum2_rows. unfold tab. by rewrite fmap_tab1. Qed.

(** The x fluxes of a column cancel, up to the flux through the last face. *)
Lemma flux_x_total n ny (u he hw : nat -> nat -> F) :
  (forall i j, (i < n)%nat -> (j < ny)%nat -> hw (S i) j = he i j) ->
  (forall j, (j < ny)%nat -> u n j = zero) ->
  sum1 (tab1 (S n) (fun i => sum1 (tab1 ny (fun j =>
    match i with
    | O => mul (u O j) (he O j)
    | S i' => sub (mul (u i j) (he i j)) (mul (u i' j) (hw i j))
    end)))) = zero.
Proof.
  intros Hw Hu.
  rewrite (sum1_tab1_ext _ _ (fun i =>
    match i with
    | O => sum1 (tab1 ny (fun j => mul (u O j) (he O j)))
    | S i' => sub (sum1 (tab1 ny (fun j => mul (u i j) (he i j))))
                  (sum1 (tab1 ny (fun j => mul (u i' j) (he i' j))))
    end)).
  - rewrite (sum1_telescope n (fun i => sum1 (tab1 ny (fun j => mul (u i j) (he i j))))).
    rewrite (sum1_tab1_ext _ _ (fun _ => zero)); [apply sum1_tab1_zero |].
    intros j Hj. rewrite Hu by done. ring.
  - intros [| i'] Hi; [done |]. rewrite <- sum1_tab1_sub.
    apply sum1_tab1_ext. intros j Hj. rewrite Hw by lia. done.
Qed.

(** The y fluxes of a row cancel likewise. *)
Lemma flux_y_total nx n (v hn hs : nat -> nat -> F) :
  (forall i j, (i < nx)%nat -> (j < n)%nat -> hs i (S j) = hn i j) ->
  (forall i, (i < nx)%nat -> v i n = zero) ->
  sum1 (tab1 nx (fun i => sum1 (tab1 (S n) (fun j =>
    match j with
    | O => mul (v i O) (hn i O)
    | S j' => sub (mul (v i j) (hn i j)) (mul (v i j') (hs i j))
    end)))) = zero.
Proof.
  intros Hs Hv.
  rewrite (sum1_tab1_ext _ _ (fun _ => zero)); [apply sum1_tab1_zero |].
  intros i Hi.
  rewrite (sum1_tab1_ext _ _ (fun j =>
    match j with
    | O => mul (v i O) (hn i O)
    | S j' => sub (mul (v i j) (hn i j)) (mul (v i j') (hn i j'))
    end)).
  - rewrite (sum1_telescope n (fun j => mul (v i j) (hn i j))).
    rewrite Hv by done. ring.
  - intros [| j'] Hj; [done |]. by rewrite Hs by lia.
Qed.

Lemma sum2_tab_ext nx ny (a b : nat -> nat -> F) :
  (forall i j, (i < nx)%nat -> (j < ny)%nat -> a i j = b i j) ->
  sum1 (tab1 nx (fun i => sum1 (tab1 ny (a i))))
  = sum1 (tab1 nx (fun i => sum1 (tab1 ny (b i)))).
Proof.
  intros Hab. apply sum1_tab1_ext. intros i Hi.
  apply sum1_tab1_ext. intros j Hj. by apply Hab.
Qed.

(** The sum of [e - c*(x/d1 + y/d2)] over the grid. *)
Lemma sum2_update nx ny c d1 d2 (e x y : nat -> nat -> F) :
  sum1 (tab1 nx (fun i => sum1 (tab1 ny (fun j =>
    sub (e i j) (mul c (add (div (x i j) d1) (div (y i j) d2)))))))
  = sub (sum1 (tab1 nx (fun i => sum1 (tab1 ny (e i)))))
        (mul c (add (div (sum1 (tab1 nx (fun i => sum1 (tab1 ny (x i))))) d1)
                    (div (sum1 (tab1 nx (fun i => sum1 (tab1 ny (y i))))) d2))).
Proof.
  rewrite <- !sum1_tab1_div, <- sum1_tab1_add, <- sum1_tab1_mul, <- sum1_tab1_sub.
  apply sum1_tab1_ext. intros i _.
  by rewrite sum1_tab1_sub, sum1_tab1_mul, sum1_tab1_add, !sum1_tab1_div.
Qed.

(** C5.  In exact arithmetic one run of the body conserves the sum of
    [eta] over all cells, from every well-formed state: the walls that the
    body itself sets on the last row of [u] and the last column of [v]
    suffice. *)
Theorem mass_conservation (p : Constants F) nx ny (m : Machine F) :
  WF nx ny m -> (0 < nx)%nat -> (0 < ny)%nat -> anim_interval p <> 0%Z ->
  exists m',
    loop_body p m = Some m' /\ sum2 (val m' eta_n) = sum2 (val m eta_n).
Proof.
  intros Hm Hnx Hny Hp. exists (stepped p nx ny m).
  split; [by apply loop_body_run |].
  destruct (stepped_values p nx ny m Hm)
    as (Hu & Hv & He & Hw & Hn & Hs & Hx & Hy & Hnew & _ & _ & Hen).
  rewrite Hen, Hnew, sum2_tab. unfold next_eta. rewrite sum2_update.
  rewrite <- (sum2_tab nx ny (at2 (val m eta_n))).
  rewrite <- (WF_val_tab nx ny m eta_n Hm).
  assert (sum1 (tab1 nx (fun i => sum1 (tab1 ny
            (at2 (val (stepped p nx ny m) uhwe) i)))) = zero) as ->.
  { rewrite Hx. erewrite sum2_tab_ext
      by (intros i j Hi Hj; rewrite at2_tab by done; reflexivity).
    unfold flux_x. destruct nx as [| n]; [lia |].
    apply flux_x_total.
    - intros i j Hi Hj. rewrite He, Hw, !at2_tab by lia.
      unfold depth_e, depth_w. destruct (Nat.eqb_spec i (S n - 1)); [lia | done].
    - intros j Hj. rewrite Hu, at2_tab by lia. unfold next_u.
      by replace (S n - 1)%nat with n by lia; rewrite Nat.eqb_refl. }
  assert (sum1 (tab1 nx (fun i => sum1 (tab1 ny
            (at2 (val (stepped p nx ny m) vhns) i)))) = zero) as ->.
  { rewrite Hy. erewrite sum2_tab_ext
      by (intros i j Hi Hj; rewrite at2_tab by done; reflexivity).
    unfold flux_y. destruct ny as [| n]; [lia |].
    apply flux_y_total.
    - intros i j Hi Hj. rewrite Hn, Hs, !at2_tab by lia.
      unfold depth_n, depth_s. destruct (Nat.eqb_spec j (S n - 1)); [lia | done].
    - intros i Hi. rewrite Hv, at2_tab by lia. unfold next_v.
      by replace (S n - 1)%nat with n by lia; rewrite Nat.eqb_refl. }
  rewrite !div_mul_inv. ring.
Qed.

End Sums.

(** * The loop, the samples and the block before the loop *)

Section LoopTheorems.
Context {F : Type} {SF : Scalar F}.
Implicit Types (m : Machine F) (p : Constants F).

Lemma shaped_zeros nx ny : shaped nx ny (zeros (F := F) nx ny).
Proof. rewrite zeros_tab. apply shaped_tab. Qed.

Lemma WF_start nx ny (eta0 : Array F) :
  shaped nx ny eta0 -> WF nx ny (start nx ny eta0).
Proof.
  intros He. split.
  - intros x y. destruct x, y; simpl; intros Heq; first [done | lia].
  - intros x. destruct x; simpl;
      first [ by exists eta0 | exists (zeros nx ny); split; [done | apply shaped_zeros] ].
Qed.

(** The loop is the body repeated [max_time_step - time_step] times. *)
Lemma while_loop_run p nx ny n : forall fuel m,
  WF nx ny m -> (0 < nx)%nat -> (0 < ny)%nat -> anim_interval p <> 0%Z ->
  Z.to_nat (max_time_step p - time_step m) = n -> (n < fuel)%nat ->
  exists mk, while_loop fuel p (loop_body p) m = Some (mk, n) /\
             repeat_stmt n (loop_body p) m = Some mk /\
             WF nx ny mk /\ time_step mk = (time_step m + Z.of_nat n)%Z.
Proof.
  induction n as [| n IH]; intros fuel m Hm Hnx Hny Hp Hn Hfuel.
  - destruct fuel as [| fuel]; [lia |]. exists m. simpl.
    destruct (Z.ltb_spec (time_step m) (max_time_step p)); [lia |].
    split; [done | split; [done | split; [done | lia]]].
  - destruct fuel as [| fuel]; [lia |].
    destruct (IH fuel (stepped p nx ny m)) as (mk & Hw & Hr & Hwf & Ht);
      [by apply WF_stepped | done | done | done
      | rewrite time_step_stepped; lia | lia |].
    exists mk. simpl.
    destruct (Z.ltb_spec (time_step m) (max_time_step p)); [| lia].
    rewrite (loop_body_run nx ny p m Hm Hnx Hny Hp). simpl. rewrite Hw. simpl.
    split; [done |]. split.
    + by erewrite seq_run by by apply (loop_body_run nx ny).
    + split; [done |]. rewrite Ht, time_step_stepped. lia.
Qed.

(** From the allocations on, the run terminates and the body runs
    [max_time_step - 1] times, the counter starting at 1. *)
Lemma simulate_run p nx ny (eta0 : Array F) fuel :
  shaped nx ny eta0 -> (0 < nx)%nat -> (0 < ny)%nat -> anim_interval p <> 0%Z ->
  (Z.to_nat (max_time_step p - 1) < fuel)%nat ->
  exists m, simulate fuel nx ny p eta0 = Some (m, Z.to_nat (max_time_step p - 1)) /\
            time_step m = Z.max 1 (max_time_step p).
Proof.
  intros He Hnx Hny Hp Hfuel. unfold simulate.
  pose proof (WF_start nx ny eta0 He) as Hm.
  rewrite (pre_loop_run p nx ny _ (fun x => at2 (val (start nx ny eta0) x)))
    by (try done; intros x; by apply WF_val_tab).
  simpl. unfold main_loop.
  destruct (while_loop_run p nx ny (Z.to_nat (max_time_step p - 1)) fuel
              (with_velocities p nx ny (start nx ny eta0)))
    as (mk & Hw & _ & _ & Ht); try done.
  - by apply WF_with_velocities.
  - exists mk. split; [done |]. rewrite Ht. simpl. lia.
Qed.

(** *** Objects out of reach of in-place writes *)

Lemma heap_poke_ne m x A l :
  env m x <> l -> heap (poke m x A) !! l = heap m !! l.
Proof. intros Hne. unfold poke. simpl. by rewrite list_lookup_insert_ne. Qed.

Lemma length_heap_poke m x A : length (heap (poke m x A)) = length (heap m).
Proof. unfold poke. simpl. apply length_insert. Qed.

Lemma heap_alloc_lt m x A l :
  (l < length (heap m))%nat -> heap (alloc m x A) !! l = heap m !! l.
Proof. intros Hl. unfold alloc. simpl. by rewrite lookup_app_l. Qed.

Lemma heap_ticked m : heap (ticked m) = heap m.
Proof. done. Qed.

Lemma env_ticked m : env (ticked m) = env m.
Proof. done. Qed.

Lemma heap_sampled p m : heap (sampled p m) = heap m.
Proof. unfold sampled. by destruct (_ =? 0)%Z. Qed.

Lemma env_sampled p m : env (sampled p m) = env m.
Proof. unfold sampled. by destruct (_ =? 0)%Z. Qed.

Lemma frozen_poke m x A l : frozen m l -> frozen (poke m x A) l.
Proof. intros [Hl Hb]. split; [by rewrite length_heap_poke | done]. Qed.

Lemma frozen_poke_heap m x A l :
  frozen m l -> buffer x = true -> heap (poke m x A) !! l = heap m !! l.
Proof. intros [Hl Hb] Hx. apply heap_poke_ne. by apply Hb. Qed.

Lemma frozen_alloc m x A l :
  frozen m l -> buffer x = false -> frozen (alloc m x A) l.
Proof.
  intros [Hl Hb] Hx. split.
  - unfold alloc. simpl. rewrite length_app. lia.
  - intros y Hy. unfold alloc. simpl.
    rewrite decide_False by (intros ->; congruence). by apply Hb.
Qed.

(** The pokes and allocations of one run leave a frozen object alone. *)
Ltac frozen_step :=
  repeat first
    [ rewrite frozen_poke_heap by (try apply frozen_poke; done)
    | apply frozen_poke
    | done ].

Lemma frozen_before_rotation p nx ny m l :
  frozen m l ->
  let m4 := with_eta p nx ny (with_fluxes nx ny
              (with_depths p nx ny (with_velocities p nx ny m))) in
  frozen m4 l /\ heap m4 !! l = heap m !! l.
Proof.
  intros Hl. cbv zeta.
  assert (frozen (with_velocities p nx ny m) l
          /\ heap (with_velocities p nx ny m) !! l = heap m !! l) as [H1 E1].
  { unfold with_velocities. split.
    - by do 2 apply frozen_poke.
    - rewrite !frozen_poke_heap; try done. by apply frozen_poke. }
  set (m1 := with_velocities p nx ny m) in *.
  assert (frozen (with_depths p nx ny m1) l
          /\ heap (with_depths p nx ny m1) !! l = heap m1 !! l) as [H2 E2].
  { unfold with_depths. split.
    - by do 4 apply frozen_poke.
    - rewrite !frozen_poke_heap; try done; by repeat apply frozen_poke. }
  set (m2 := with_depths p nx ny m1) in *.
  assert (frozen (with_fluxes nx ny m2) l
          /\ heap (with_fluxes nx ny m2) !! l = heap m2 !! l) as [H3 E3].
  { unfold with_fluxes. split.
    - by do 2 apply frozen_poke.
    - rewrite !frozen_poke_heap; try done. by apply frozen_poke. }
  set (m3 := with_fluxes nx ny m2) in *.
  split.
  - unfold with_eta. by apply frozen_poke.
  - unfold with_eta. rewrite frozen_poke_heap by done. congruence.
Qed.

Lemma frozen_rotated m l :
  frozen m l -> frozen (rotated m) l /\ heap (rotated m) !! l = heap m !! l.
Proof.
  intros Hl. unfold rotated. split.
  - by do 3 (apply frozen_alloc; [| done]).
  - pose proof Hl as [Hlen _].
    rewrite !heap_alloc_lt; [done | done | |];
      unfold alloc; simpl; rewrite ?length_app; lia.
Qed.

Lemma stepped_heap p nx ny m l :
  frozen m l -> heap (stepped p nx ny m) !! l = heap m !! l.
Proof.
  intros Hl. unfold stepped. rewrite heap_sampled, heap_ticked.
  destruct (frozen_before_rotation p nx ny m l Hl) as [H4 E4].
  destruct (frozen_rotated _ l H4) as [_ E5].
  rewrite E5. exact E4.
Qed.

Lemma stepped_frozen p nx ny m l : frozen m l -> frozen (stepped p nx ny m) l.
Proof.
  intros Hl.
  destruct (frozen_before_rotation p nx ny m l Hl) as [H4 _].
  destruct (frozen_rotated _ l H4) as [[H5 H6] _].
  unfold stepped. split.
  - rewrite heap_sampled, heap_ticked. exact H5.
  - intros x Hx. rewrite env_sampled, env_ticked. exact (H6 x Hx).
Qed.

Lemma WF_frozen nx ny m x : WF nx ny m -> buffer x = false -> frozen m (env m x).
Proof.
  intros Hm Hx. split; [eapply WF_bound, Hm |].
  intros y Hy Heq. apply (proj1 Hm) in Heq. subst. congruence.
Qed.

Lemma repeat_frozen p nx ny k : forall m l,
  WF nx ny m -> (0 < nx)%nat -> (0 < ny)%nat -> anim_interval p <> 0%Z ->
  frozen m l ->
  exists mk, repeat_stmt k (loop_body p) m = Some mk /\
             heap mk !! l = heap m !! l.
Proof.
  induction k as [| k IH]; intros m l Hm Hnx Hny Hp Hl.
  - by exists m.
  - destruct (IH (stepped p nx ny m) l) as (mk & Hk & Hh); try done.
    + by apply WF_stepped.
    + by apply stepped_frozen.
    + exists mk. split.
      * simpl. by erewrite seq_run by by apply (loop_body_run nx ny).
      * rewrite Hh. by apply stepped_heap.
Qed.

Lemma sampled_lists p m :
  (time_step m mod anim_interval p = 0)%Z ->
  u_list (sampled p m) = u_list m ++ [env (sampled p m) u_n] /\
  v_list (sampled p m) = v_list m ++ [env (sampled p m) v_n] /\
  eta_list (sampled p m) = eta_list m ++ [env (sampled p m) eta_n].
Proof.
  intros Hs. unfold sampled. apply Z.eqb_eq in Hs. by rewrite Hs.
Qed.

Lemma lists_before_sample p nx ny m :
  let m6 := ticked (rotated (with_eta p nx ny (with_fluxes nx ny
              (with_depths p nx ny (with_velocities p nx ny m))))) in
  time_step m6 = (time_step m + 1)%Z /\ u_list m6 = u_list m /\
  v_list m6 = v_list m /\ eta_list m6 = eta_list m.
Proof. cbv zeta. repeat split; reflexivity. Qed.

(** C7, as amended.  At a completed step whose index is a multiple of
    [anim_interval], the sampler appends to [u_list], [v_list], [eta_list]
    the objects bound to [u_n], [v_n], [eta_n] themselves (references; no
    copy, no time stamp).  Those objects are the copies that the rotation
    has just made: no name written in place is bound to them, their
    contents are the fields of that step and stay so through any number [k]
    of later steps. *)
Theorem sampler_appends_current_arrays p nx ny m k :
  WF nx ny m -> (0 < nx)%nat -> (0 < ny)%nat -> anim_interval p <> 0%Z ->
  ((time_step m + 1) mod anim_interval p = 0)%Z ->
  exists m', loop_body p m = Some m' /\
    u_list m' = u_list m ++ [env m' u_n] /\
    v_list m' = v_list m ++ [env m' v_n] /\
    eta_list m' = eta_list m ++ [env m' eta_n] /\
    forall x, buffer x = false ->
      heap m' !! env m' x = Some (val m' x) /\
      (forall y, buffer y = true -> env m' y <> env m' x) /\
      exists mk, repeat_stmt k (loop_body p) m' = Some mk /\
                 heap mk !! env m' x = Some (val m' x).
Proof.
  intros Hm Hnx Hny Hp Hs. exists (stepped p nx ny m).
  pose proof (WF_stepped nx ny p m Hm) as Hm'.
  split; [by apply loop_body_run |].
  destruct (lists_before_sample p nx ny m) as (Ht & Hu & Hv & He).
  rewrite <- Ht in Hs. apply (sampled_lists p) in Hs.
  rewrite Hu, Hv, He in Hs. destruct Hs as (Hu' & Hv' & He').
  split; [exact Hu' |]. split; [exact Hv' |]. split; [exact He' |].
  intros x Hx. split; [by apply (WF_lookup nx ny) |].
  split; [by apply (WF_frozen nx ny) |].
  destruct (repeat_frozen p nx ny k (stepped p nx ny m) (env (stepped p nx ny m) x))
    as (mk & Hk & Hh); try done.
  - by apply (WF_frozen nx ny).
  - exists mk. split; [done |]. rewrite Hh. by apply (WF_lookup nx ny).
Qed.

(** *** The block before the loop *)

Lemma with_velocities_idem p nx ny m :
  WF nx ny m ->
  with_velocities p nx ny (with_velocities p nx ny m) = with_velocities p nx ny m.
Proof.
  intros Hm. pose proof (WF_with_velocities nx ny p m Hm) as H1.
  unfold with_velocities at 1.
  rewrite !(val_with_velocities p nx ny m Hm).
  unfold with_velocities.
  rewrite (poke_comm nx ny (poke m u_np1 _) v_np1 u_np1) by side.
  by rewrite !poke_poke.
Qed.

Lemma loop_body_after_pre_loop p nx ny m :
  WF nx ny m -> (0 < nx)%nat -> (0 < ny)%nat ->
  loop_body p (with_velocities p nx ny m) = loop_body p m.
Proof.
  intros Hm Hnx Hny. pose proof (WF_with_velocities nx ny p m Hm) as H1.
  unfold loop_body.
  rewrite <- (seq_assoc _ _ _ m).
  rewrite <- (seq_assoc _ _ _ (with_velocities p nx ny m)).
  erewrite seq_run
    by (eapply (velocities_run p nx ny _ (fun x => at2 (val _ x))); try done;
        intros x; by apply WF_val_tab).
  erewrite (seq_run _ _ m)
    by (eapply (velocities_run p nx ny _ (fun x => at2 (val _ x))); try done;
        intros x; by apply WF_val_tab).
  by rewrite with_velocities_idem.
Qed.

(** C10.  The recorded snapshots (and the number of runs of the body) are
    the same whether or not the block before the loop (lines 234-242) is
    run: the first run of the body overwrites all of [u_np1] and [v_np1]. *)
Theorem pre_loop_block_unobservable p nx ny (eta0 : Array F) fuel :
  shaped nx ny eta0 -> (0 < nx)%nat -> (0 < ny)%nat ->
  (fun r => (snapshots r.1, r.2)) <$> simulate fuel nx ny p eta0
  = (fun r => (snapshots r.1, r.2)) <$> simulate_without_pre_loop fuel nx ny p eta0.
Proof.
  intros He Hnx Hny. unfold simulate, simulate_without_pre_loop.
  pose proof (WF_start nx ny eta0 He) as Hm.
  rewrite (pre_loop_run p nx ny _ (fun x => at2 (val (start nx ny eta0) x)))
    by (try done; intros x; by apply WF_val_tab).
  simpl. unfold main_loop. destruct fuel as [| fuel]; [done |]. simpl.
  destruct (1 <? max_time_step p)%Z; [| done].
  by rewrite (loop_body_after_pre_loop p nx ny _ Hm Hnx Hny).
Qed.

End LoopTheorems.

(** * Start-up *)

Section StartupFacts.
Local Open Scope R_scope.

Lemma transpose_tab n k (f : nat -> nat -> R) :
  transpose (tab (S n) k f) = tab k (S n) (fun i j => f j i).
Proof.
  revert f. induction n as [| n IH]; intros f.
  - unfold tab. rewrite <- (tab1_cons 0 (fun i => tab1 k (f i))). simpl.
    change (map (fun a => [a])) with (fmap (M := list) (fun a : R => [a])).
    rewrite fmap_tab1. by apply tab1_ext.
  - unfold tab at 1. rewrite <- (tab1_cons (S n) (fun i => tab1 k (f i))).
    change (tab1 (S n) (fun i => tab1 k (f (S i))))
      with (tab (S n) k (fun i => f (S i))).
    cbn [transpose]. rewrite IH.
    destruct (tab (S n) k (fun i => f (S i))) as [| r A] eqn:Hr.
    { apply (f_equal length) in Hr. unfold tab in Hr.
      rewrite length_tab1 in Hr. done. }
    unfold tab. rewrite zip_with_tab1. apply tab1_ext. intros i _.
    by rewrite (tab1_cons (S n) (fun j => f j i)).
Qed.

Lemma initial_state_run (c : Config) :
  (2 <= Cfg.N_x c)%Z -> (2 <= Cfg.N_y c)%Z ->
  exists k, constants c = Some k /\
    initial_state c
    = Some (k, start (Z.to_nat (Cfg.N_x c)) (Z.to_nat (Cfg.N_y c))
                 (tab (Z.to_nat (Cfg.N_x c)) (Z.to_nat (Cfg.N_y c))
                    (fun i j => bump c (coordinate (Cfg.L_x c) (Cfg.N_x c) i)
                                       (coordinate (Cfg.L_y c) (Cfg.N_y c) j)))).
Proof.
  intros Hx Hy. unfold initial_state, constants, spacing.
  destruct (Z.eqb_spec (Cfg.N_x c - 1) 0); [lia |].
  destruct (Z.eqb_spec (Cfg.N_y c - 1) 0); [lia |].
  eexists. split; [reflexivity |]. cbn [mbind option_bind].
  unfold linspace.
  destruct (Z.ltb_spec (Cfg.N_x c) 0); [lia |].
  destruct (Z.ltb_spec (Cfg.N_y c) 0); [lia |].
  cbn [mbind option_bind]. unfold meshgrid. cbn [fst snd].
  rewrite !length_tab1.
  destruct (Z.to_nat (Cfg.N_x c)) as [| nx] eqn:Hnx; [lia |].
  destruct (Z.to_nat (Cfg.N_y c)) as [| ny] eqn:Hny; [lia |].
  set (x := fun i : nat => _). set (y := fun i : nat => _).
  assert (replicate (S ny) (tab1 (S nx) x) = tab (S ny) (S nx) (fun _ i => x i))
    as -> by (unfold tab; by rewrite replicate_tab1).
  assert (map (fun yj : R => replicate (S nx) yj) (tab1 (S ny) y)
          = tab (S ny) (S nx) (fun j _ => y j)) as ->.
  { change (map ?f) with (fmap (M := list) f). rewrite fmap_tab1. unfold tab.
    apply tab1_ext. intros j _. apply replicate_tab1. }
  rewrite !transpose_tab, ew2_tab. reflexivity.
Qed.

Lemma shaped_initial_eta (c : Config) nx ny :
  shaped nx ny
    (tab nx ny (fun i j => bump c (coordinate (Cfg.L_x c) (Cfg.N_x c) i)
                                  (coordinate (Cfg.L_y c) (Cfg.N_y c) j))).
Proof. apply shaped_tab. Qed.

(** For a grid of at least 2 by 2 points nothing stops the run: the loop
    body runs [max_time_step - 1] times whatever the signs of the spacings
    and of the time step. *)
Lemma program_run (c : Config) fuel :
  (2 <= Cfg.N_x c)%Z -> (2 <= Cfg.N_y c)%Z -> Cfg.anim_interval c <> 0%Z ->
  (Z.to_nat (Cfg.max_time_step c - 1) < fuel)%nat ->
  exists k m, constants c = Some k /\
    program fuel c = Some (m, Z.to_nat (Cfg.max_time_step c - 1)).
Proof.
  intros Hx Hy Ha Hfuel.
  destruct (initial_state_run c Hx Hy) as (k & Hk & Hi).
  assert (max_time_step k = Cfg.max_time_step c /\
          anim_interval k = Cfg.anim_interval c) as [Hmax Hanim].
  { unfold constants in Hk.
    destruct (spacing (Cfg.L_x c) (Cfg.N_x c)); [| done].
    destruct (spacing (Cfg.L_y c) (Cfg.N_y c)); [| done].
    simpl in Hk. by injection Hk as <-. }
  destruct (simulate_run k (Z.to_nat (Cfg.N_x c))
              (Z.to_nat (Cfg.N_y c)) _ fuel
              (shaped_initial_eta c _ _)) as (m & Hm & _);
    [lia | lia | by rewrite Hanim | by rewrite Hmax |].
  exists k, m. split; [done |]. unfold program. rewrite Hi.
  cbn [mbind option_bind fst snd]. unfold simulate in Hm. by rewrite <- Hmax.
Qed.

Lemma constants_fields (c : Config) k :
  constants c = Some k ->
  dx k = (Cfg.L_x c / IZR (Cfg.N_x c - 1))%R /\
  dy k = (Cfg.L_y c / IZR (Cfg.N_y c - 1))%R /\
  dt k = (1 / 10 * Rmin (dx k) (dy k) / sqrt (g k * H k))%R /\
  g k = Cfg.g c /\ H k = Cfg.H c.
Proof.
  unfold constants, spacing. intros Hk.
  destruct (Cfg.N_x c - 1 =? 0)%Z; [done |].
  destruct (Cfg.N_y c - 1 =? 0)%Z; [done |].
  simpl in Hk. by injection Hk as <-.
Qed.


Lemma exp_neg_le_1 q : 0 <= q -> exp (- q) <= 1.
Proof.
  intros Hq. rewrite <- exp_0. destruct (Req_dec q 0) as [-> | Hne].
  - rewrite Ropp_0. lra.
  - left. apply exp_increasing. lra.
Qed.

Lemma exp_neg_eq_1 q : exp (- q) = 1 <-> q = 0.
Proof.
  split.
  - intros Hq. rewrite <- exp_0 in Hq. apply exp_inv in Hq. lra.
  - intros ->. by rewrite Ropp_0, exp_0.
Qed.

Lemma bump_exponent_nonneg a b : 0 <= a ^ 2 / (2 * 50000 ^ 2) + b ^ 2 / (2 * 50000 ^ 2).
Proof.
  pose proof (pow2_ge_0 a) as Ha. pose proof (pow2_ge_0 b) as Hb.
  set (A := a ^ 2) in *. set (B := b ^ 2) in *. clearbody A B.
  assert (A / (2 * 50000 ^ 2) + B / (2 * 50000 ^ 2)
          = (A + B) / 5000000000) as -> by field.
  lra.
Qed.

Lemma bump_exponent_zero a b :
  a ^ 2 / (2 * 50000 ^ 2) + b ^ 2 / (2 * 50000 ^ 2) = 0 <-> a = 0 /\ b = 0.
Proof.
  pose proof (pow2_ge_0 a) as Ha. pose proof (pow2_ge_0 b) as Hb.
  split.
  - intros Hq.
    assert (a ^ 2 = 0 /\ b ^ 2 = 0) as [Ha0 Hb0].
    { set (A := a ^ 2) in *. set (B := b ^ 2) in *. clearbody A B.
      assert (A / (2 * 50000 ^ 2) + B / (2 * 50000 ^ 2)
              = (A + B) / 5000000000) as Heq by (field).
      rewrite Heq in Hq. lra. }
    split; nra.
  - intros [-> ->]. field.
Qed.

Lemma bump_le_1 c x y : bump c x y <= 1.
Proof. unfold bump. apply exp_neg_le_1, bump_exponent_nonneg. Qed.

Lemma bump_eq_1 c x y :
  bump c x y = 1 <-> x = Cfg.L_x c / (27 / 10) /\ y = Cfg.L_y c / 4.
Proof.
  unfold bump. rewrite exp_neg_eq_1, bump_exponent_zero. lra.
Qed.

Lemma coordinate_first L n : coordinate L n 0 = - L / 2.
Proof. unfold coordinate. simpl. lra. Qed.

Lemma coordinate_last L n :
  (2 <= n)%Z -> coordinate L n (Z.to_nat (n - 1)) = L / 2.
Proof.
  intros Hn. unfold coordinate. rewrite INR_IZR_INZ, Z2Nat.id by lia.
  assert (IZR (n - 1) <> 0) by (apply not_0_IZR; lia). field. done.
Qed.

Lemma val_start_eta nx ny (eta0 : Array R) : val (start nx ny eta0) eta_n = eta0.
Proof. done. Qed.

(** C9, as amended.  Initially [u_n] and [v_n] are zero and
    [eta_n[i,j]] is the Gaussian
    [exp(-((x_i - L_x/2.7)^2 + (y_j - L_y/4)^2)/(2*50000^2))] on the grid
    whose axes run from [-L/2] to [L/2]: a bump of height 1 reached only at
    the centre [(L_x/2.7, L_y/4)] of the centred coordinates, with the fixed
    scale 50000 (which is [0.05*L_x] for the default [L_x]). *)
Theorem initial_fields (c : Config) :
  (2 <= Cfg.N_x c)%Z -> (2 <= Cfg.N_y c)%Z ->
  let nx := Z.to_nat (Cfg.N_x c) in
  let ny := Z.to_nat (Cfg.N_y c) in
  let X := coordinate (Cfg.L_x c) (Cfg.N_x c) in
  let Y := coordinate (Cfg.L_y c) (Cfg.N_y c) in
  exists k m0, initial_state c = Some (k, m0) /\
    val m0 u_n = zeros nx ny /\ val m0 v_n = zeros nx ny /\
    (forall i j, (i < nx)%nat -> (j < ny)%nat ->
       at2 (val m0 eta_n) i j
       = exp (- ((X i - Cfg.L_x c / (27 / 10)) ^ 2 / (2 * 50000 ^ 2)
                 + (Y j - Cfg.L_y c / 4) ^ 2 / (2 * 50000 ^ 2)))) /\
    X 0%nat = - Cfg.L_x c / 2 /\ X (nx - 1)%nat = Cfg.L_x c / 2 /\
    Y 0%nat = - Cfg.L_y c / 2 /\ Y (ny - 1)%nat = Cfg.L_y c / 2 /\
    (forall x y, bump c x y <= 1) /\
    (forall x y, bump c x y = 1 <-> x = Cfg.L_x c / (27 / 10) /\ y = Cfg.L_y c / 4).
Proof.
  intros Hx Hy. cbv zeta.
  destruct (initial_state_run c Hx Hy) as (k & _ & Hi).
  eexists k, _. split; [exact Hi |].
  split; [done |]. split; [done |]. split.
  { intros i j Hi' Hj'. by rewrite val_start_eta, at2_tab. }
  split; [apply coordinate_first |]. split.
  { replace (Z.to_nat (Cfg.N_x c) - 1)%nat with (Z.to_nat (Cfg.N_x c - 1)) by lia.
    by apply coordinate_last. }
  split; [apply coordinate_first |]. split.
  { replace (Z.to_nat (Cfg.N_y c) - 1)%nat with (Z.to_nat (Cfg.N_y c - 1)) by lia.
    by apply coordinate_last. }
  split; [apply bump_le_1 | apply bump_eq_1].
Qed.

(** C9 as stated fails: with the default constants, the entry at the grid
    point [(0, 0)] is not that of a bump centred at
    [(L_x/2.7 - L_x/2, L_y/4 - L_y/2)] with scale [0.05*L_x]. *)
Lemma initial_bump_centre_counterexample :
  let c := Cfg.default_config in
  exists k m0, initial_state c = Some (k, m0) /\
    at2 (val m0 eta_n) 0 0
    <> exp (- ((coordinate (Cfg.L_x c) (Cfg.N_x c) 0
                - (Cfg.L_x c / (27 / 10) - Cfg.L_x c / 2)) ^ 2
               / (2 * (5 / 100 * Cfg.L_x c) ^ 2)
               + (coordinate (Cfg.L_y c) (Cfg.N_y c) 0
                  - (Cfg.L_y c / 4 - Cfg.L_y c / 2)) ^ 2
                 / (2 * (5 / 100 * Cfg.L_x c) ^ 2))).
Proof.
  cbv zeta.
  destruct (initial_state_run Cfg.default_config) as (k & _ & Hi);
    [simpl; lia | simpl; lia |].
  eexists k, _. split; [exact Hi |].
  rewrite val_start_eta, at2_tab by (simpl; lia).
  rewrite !coordinate_first. unfold bump. cbn [Cfg.L_x Cfg.L_y Cfg.default_config].
  intros Heq. apply exp_inv in Heq. lra.
Qed.


Lemma cfl_of_positive (dx dy s : R) :
  0 < dx -> 0 < dy -> 0 < s ->
  0 < 1 / 10 * Rmin dx dy / s /\ 1 / 10 * Rmin dx dy / s <= Rmin dx dy / s.
Proof.
  intros Hdx Hdy Hs.
  assert (0 < Rmin dx dy / s) as Hq
    by (apply Rdiv_lt_0_compat; [by apply Rmin_glb_lt | done]).
  replace (1 / 10 * Rmin dx dy / s) with (1 / 10 * (Rmin dx dy / s))
    by (unfold Rdiv; ring).
  lra.
Qed.

Lemma cfl_of_negative (dx dy s : R) :
  dx < 0 -> 0 < dy -> 0 < s ->
  1 / 10 * Rmin dx dy / s < 0 /\ ~ 1 / 10 * Rmin dx dy / s <= Rmin dx dy / s.
Proof.
  intros Hdx Hdy Hs. rewrite Rmin_left by lra.
  assert (0 < - dx / s) as Hq by (apply Rdiv_lt_0_compat; lra).
  replace (1 / 10 * dx / s) with (- (1 / 10 * (- dx / s)))
    by (unfold Rdiv; ring).
  replace (dx / s) with (- (- dx / s)) by (unfold Rdiv; ring).
  lra.
Qed.

(** C8, as amended.  Nothing is checked at start-up: on a grid of at least
    2 by 2 points the loop runs ([max_time_step - 1] runs of the body)
    whatever the signs of the spacings and of the time step.  The time step
    is derived as [0.1*min(dx, dy)/sqrt(g*H)]; when [L_x], [L_y] and [g*H]
    are positive, [dx], [dy] and [dt] are positive and the CFL bound
    [dt <= min(dx, dy)/sqrt(g*H)] holds. *)
Theorem no_startup_check (c : Config) fuel :
  (2 <= Cfg.N_x c)%Z -> (2 <= Cfg.N_y c)%Z -> Cfg.anim_interval c <> 0%Z ->
  (Z.to_nat (Cfg.max_time_step c - 1) < fuel)%nat ->
  exists k m, constants c = Some k /\
    program fuel c = Some (m, Z.to_nat (Cfg.max_time_step c - 1)) /\
    dt k = 1 / 10 * Rmin (dx k) (dy k) / sqrt (g k * H k) /\
    (0 < Cfg.L_x c -> 0 < Cfg.L_y c -> 0 < Cfg.g c * Cfg.H c ->
     0 < dx k /\ 0 < dy k /\ 0 < dt k /\ cfl_ok k).
Proof.
  intros Hx Hy Ha Hfuel.
  destruct (program_run c fuel Hx Hy Ha Hfuel) as (k & m & Hk & Hrun).
  exists k, m. split; [done |]. split; [done |].
  destruct (constants_fields c k Hk) as (Hdx & Hdy & Hdt & Hg & HH).
  split; [done |]. intros HLx HLy HgH.
  assert (0 < IZR (Cfg.N_x c - 1)) as Hnx by (apply IZR_lt; lia).
  assert (0 < IZR (Cfg.N_y c - 1)) as Hny by (apply IZR_lt; lia).
  assert (0 < dx k) as Hdx0 by (rewrite Hdx; by apply Rdiv_lt_0_compat).
  assert (0 < dy k) as Hdy0 by (rewrite Hdy; by apply Rdiv_lt_0_compat).
  assert (0 < sqrt (g k * H k)) as Hs
    by (apply sqrt_lt_R0; by rewrite Hg, HH).
  destruct (cfl_of_positive _ _ _ Hdx0 Hdy0 Hs) as [Hpos Hcfl].
  unfold cfl_ok. rewrite Hdt. done.
Qed.

(** C8 as stated fails: with the x axis reversed the spacing [dx] and the
    time step are negative and the CFL bound is violated; nothing is
    reported and the loop body runs 4999 times. *)
Lemma no_startup_check_counterexample :
  exists k m, constants reversed_x_config = Some k /\
    dx k < 0 /\ dt k < 0 /\ ~ cfl_ok k /\
    program (Z.to_nat 5000) reversed_x_config = Some (m, Z.to_nat 4999).
Proof.
  destruct (program_run reversed_x_config (Z.to_nat 5000))
    as (k & m & Hk & Hrun); [simpl; lia | simpl; lia | done | simpl; lia |].
  exists k, m. split; [done |].
  destruct (constants_fields _ k Hk) as (Hdx & Hdy & Hdt & Hg & HH).
  cbn [reversed_x_config Cfg.L_x Cfg.L_y Cfg.N_x Cfg.N_y Cfg.g Cfg.H] in *.
  change (150 - 1)%Z with 149%Z in *.
  assert (dx k < 0) as Hdx0 by (rewrite Hdx; lra).
  assert (0 < dy k) as Hdy0 by (rewrite Hdy; lra).
  assert (0 < sqrt (g k * H k)) as Hs
    by (apply sqrt_lt_R0; rewrite Hg, HH; lra).
  destruct (cfl_of_negative _ _ _ Hdx0 Hdy0 Hs) as [Hneg Hcfl].
  split; [done |]. split; [by rewrite Hdt |].
  split; [unfold cfl_ok; by rewrite Hdt | exact Hrun].
Qed.

(** C6.  With the default constants ([max_time_step = 5000]) the run
    terminates after 4999 runs of the loop body, one short of
    [max_time_step]: the counter starts at 1 and the loop stops when it
    reaches [max_time_step]. *)
Theorem default_run_executes_4999_bodies :
  exists m, program (Z.to_nat 5000) Cfg.default_config = Some (m, Z.to_nat 4999).
Proof.
  destruct (program_run Cfg.default_config (Z.to_nat 5000))
    as (k & m & _ & Hrun); [simpl; lia | simpl; lia | done | simpl; lia |].
  by exists m.
Qed.

(** A grid with a single point on an axis stops the run at the division
    [L_x/(N_x - 1)]. *)
Lemma single_point_axis_raises (c : Config) fuel :
  Cfg.N_x c = 1%Z \/ Cfg.N_y c = 1%Z -> program fuel c = None.
Proof.
  intros Hn. unfold program, initial_state, constants, spacing.
  destruct Hn as [-> | ->]; simpl; [done |].
  by destruct (Cfg.N_x c - 1 =? 0)%Z.
Qed.

End StartupFacts.

(** * The small run *)

Lemma demo_eta_shaped : shaped 2 2 demo_eta.
Proof. split; [reflexivity | by repeat constructor]. Qed.

Lemma demo_state_WF : WF 2 2 demo_state.
Proof. apply WF_start, demo_eta_shaped. Qed.

Lemma momentum_predictor_witness :
  exists m', loop_body demo_constants demo_state = Some m' /\
    at2 (val m' u_np1) 0 0
    = sub (at2 (val demo_state u_n) 0 0)
          (mul (div (mul (g demo_constants) (dt demo_constants)) (dx demo_constants))
               (sub (at2 (val demo_state eta_n) 1 0) (at2 (val demo_state eta_n) 0 0))).
Proof.
  destruct (momentum_predictor demo_constants 2 2 demo_state demo_state_WF)
    as (m' & Hrun & Hu & _); [lia | lia | done |].
  exists m'. split; [exact Hrun |]. apply (Hu 0%nat 0%nat); lia.
Defined.

Lemma boundary_invariant_witness :
  exists mk, repeat_stmt 2 (loop_body demo_constants) demo_state = Some mk /\
    row_last (val mk u_n) = Some [zero; zero] /\
    col_last (val mk v_n) = Some [zero; zero].
Proof.
  apply (boundary_invariant demo_constants 2 2 demo_state 1 demo_state_WF);
    [lia | lia | done].
Defined.

Lemma upwind_interface_depth_witness :
  exists m', loop_body demo_constants demo_state = Some m' /\
    (at2 (val m' u_np1) 0 0 = zero ->
     at2 (val m' h_e) 0 0 = add (at2 (val demo_state eta_n) 1 0) (H demo_constants)).
Proof.
  destruct (upwind_interface_depth demo_constants 2 2 demo_state demo_state_WF)
    as (m' & Hrun & Hx & _); [lia | lia | done |].
  exists m'. split; [exact Hrun |].
  destruct (Hx 0%nat 0%nat) as (_ & _ & Htie); [lia | lia |]. exact Htie.
Defined.

Lemma continuity_step_witness :
  exists m', loop_body demo_constants demo_state = Some m' /\
    at2 (val m' uhwe) 0 0
    = mul (at2 (val m' u_np1) 0 0) (at2 (val m' h_e) 0 0).
Proof.
  destruct (continuity_step demo_constants 2 2 demo_state demo_state_WF)
    as (m' & Hrun & _ & _ & H0 & _); [lia | lia | done |].
  exists m'. split; [exact Hrun |]. apply (H0 0%nat). lia.
Defined.

Lemma mass_conservation_witness :
  exists m', loop_body demo_constants demo_state = Some m' /\
             sum2 (val m' eta_n) = sum2 (val demo_state eta_n).
Proof.
  apply (mass_conservation demo_constants 2 2 demo_state demo_state_WF);
    [lia | lia | done].
Defined.

Lemma sampler_appends_current_arrays_witness :
  exists m', loop_body demo_constants demo_state = Some m' /\
    u_list m' = u_list demo_state ++ [env m' u_n].
Proof.
  destruct (sampler_appends_current_arrays demo_constants 2 2 demo_state 1
              demo_state_WF) as (m' & Hrun & Hu & _);
    [lia | lia | done | reflexivity |].
  exists m'. split; [exact Hrun | exact Hu].
Defined.

Lemma pre_loop_block_unobservable_witness :
  (fun r => (snapshots r.1, r.2)) <$> simulate 5 2 2 demo_constants demo_eta
  = (fun r => (snapshots r.1, r.2))
      <$> simulate_without_pre_loop 5 2 2 demo_constants demo_eta.
Proof.
  apply (pre_loop_block_unobservable demo_constants 2 2 demo_eta 5 demo_eta_shaped);
    lia.
Defined.

Lemma initial_fields_witness :
  exists k m0, initial_state Cfg.default_config = Some (k, m0) /\
    val m0 u_n = zeros 150 150.
Proof.
  destruct (initial_fields Cfg.default_config) as (k & m0 & Hi & Hu & _);
    [simpl; lia | simpl; lia |].
  exists k, m0. split; [exact Hi | exact Hu].
Defined.

Lemma no_startup_check_witness :
  exists k m, constants Cfg.default_config = Some k /\
    program (Z.to_nat 5000) Cfg.default_config = Some (m, Z.to_nat 4999) /\
    cfl_ok k.
Proof.
  destruct (no_startup_check Cfg.default_config (Z.to_nat 5000))
    as (k & m & Hk & Hrun & _ & Hcfl); [simpl; lia | simpl; lia | done | simpl; lia |].
  exists k, m. split; [exact Hk |]. split; [exact Hrun |].
  apply Hcfl; simpl; lra.
Defined.

(** C7 as stated fails: on the small run, after the first sampled step the
    entry appended to each list is the very object bound to [u_n], [v_n],
    [eta_n] (no copy is taken by the sampler: the only new objects of the
    step are the three copies of the rotation), and nothing but the
    reference is stored. *)
Lemma sampler_copy_counterexample :
  exists m', loop_body demo_constants demo_state = Some m' /\
    time_step m' = 2%Z /\
    u_list m' = [env m' u_n] /\ v_list m' = [env m' v_n] /\
    eta_list m' = [env m' eta_n] /\
    length (heap m') = (length (heap demo_state) + 3)%nat.
Proof.
  exists (stepped demo_constants 2 2 demo_state). split.
  - apply loop_body_run; [apply demo_state_WF | lia | lia | done].
  - vm_compute. repeat split; reflexivity.
Qed.

(** The small run, evaluated: [max_time_step = 3] gives 2 runs of the body
    and one sample, at step 2. *)
Example demo_run :
  (fun r => (time_step r.1, u_list r.1, r.2)) <$> simulate 5 2 2 demo_constants demo_eta
  = Some (3%Z, [13%nat], 2%nat).
Proof. vm_compute. reflexivity. Qed.

(** * Whole runs *)

Section RunFacts.
Context {F : Type} {SF : Scalar F}.
Implicit Types (m : Machine F) (p : Constants F).

Lemma steps_S p nx ny n m :
  steps p nx ny (S n) m = stepped p nx ny (steps p nx ny n m).
Proof. done. Qed.

Lemma steps_S_r p nx ny n m :
  steps p nx ny (S n) m = steps p nx ny n (stepped p nx ny m).
Proof. unfold steps. by rewrite Nat.iter_succ_r. Qed.

Lemma WF_steps nx ny p n m : WF nx ny m -> WF nx ny (steps p nx ny n m).
Proof.
  intros Hm. induction n as [| n IH]; [done |].
  rewrite steps_S. by apply WF_stepped.
Qed.

Lemma time_step_steps p nx ny n m :
  time_step (steps p nx ny n m) = (time_step m + Z.of_nat n)%Z.
Proof.
  induction n as [| n IH]; [simpl; lia |].
  rewrite steps_S, time_step_stepped, IH. lia.
Qed.

Lemma repeat_steps p nx ny n : forall m,
  WF nx ny m -> (0 < nx)%nat -> (0 < ny)%nat -> anim_interval p <> 0%Z ->
  repeat_stmt n (loop_body p) m = Some (steps p nx ny n m).
Proof.
  induction n as [| n IH]; intros m Hm Hnx Hny Hp; [done |].
  rewrite steps_S_r. cbn [repeat_stmt].
  erewrite seq_run by by apply (loop_body_run nx ny).
  apply IH; try done. by apply WF_stepped.
Qed.

(** X1 (no failure on well-formed states).  On a non-empty grid with a
    non-zero sampling interval, any number of runs of the loop body raises
    nothing, and afterwards every array name is still bound to an object of
    its own of shape [(N_x, N_y)]. *)
Theorem body_never_raises p nx ny m n :
  WF nx ny m -> (0 < nx)%nat -> (0 < ny)%nat -> anim_interval p <> 0%Z ->
  exists mn, repeat_stmt n (loop_body p) m = Some mn /\
    (forall x y, env mn x = env mn y -> x = y) /\
    (forall x, exists A, heap mn !! env mn x = Some A /\ shaped nx ny A) /\
    time_step mn = (time_step m + Z.of_nat n)%Z.
Proof.
  intros Hm Hnx Hny Hp. exists (steps p nx ny n m).
  split; [by apply repeat_steps |].
  destruct (WF_steps nx ny p n m Hm) as [Hinj Hsh].
  split; [exact Hinj |]. split; [exact Hsh |]. apply time_step_steps.
Qed.

(** The phases before the sample, on a well-formed state: they never
    raise, whatever the sampling interval. *)
Lemma body_before_sample nx ny p m :
  WF nx ny m -> (0 < nx)%nat -> (0 < ny)%nat ->
  loop_body p m
  = sample p (ticked (rotated (with_eta p nx ny (with_fluxes nx ny
               (with_depths p nx ny (with_velocities p nx ny m)))))).
Proof.
  intros Hm Hnx Hny. unfold loop_body.
  pose proof (WF_with_velocities nx ny p m Hm) as H1.
  pose proof (WF_with_depths nx ny p _ H1) as H2.
  pose proof (WF_with_fluxes nx ny _ H2) as H3.
  pose proof (WF_with_eta nx ny p _ H3) as H4.
  rewrite <- seq_assoc.
  erewrite seq_run
    by (eapply (velocities_run p nx ny m (fun x => at2 (val m x))); try done;
        intros x; by apply WF_val_tab).
  erewrite seq_run
    by (eapply (depths_run p nx ny _ (fun x => at2 (val _ x))); try done;
        intros x; by apply WF_val_tab).
  erewrite seq_run
    by (eapply (fluxes_run p nx ny _ (fun x => at2 (val _ x))); try done;
        intros x; by apply WF_val_tab).
  erewrite seq_run
    by (eapply (continuity_run p nx ny _ (fun x => at2 (val _ x))); try done;
        intros x; by apply WF_val_tab).
  erewrite seq_run by (eapply rotate_run, H4).
  by erewrite seq_run by reflexivity.
Qed.

(** X2 (sampling interval 0).  With [anim_interval = 0] the first run of
    the body raises (the [%] of line 293 divides by zero), so a run with
    [max_time_step > 1] raises; with [max_time_step <= 1] the loop is not
    entered and the run ends with empty lists. *)
Theorem zero_interval_raises p nx ny (eta0 : Array F) fuel :
  shaped nx ny eta0 -> (0 < nx)%nat -> (0 < ny)%nat -> anim_interval p = 0%Z ->
  (0 < fuel)%nat ->
  (forall m, WF nx ny m -> loop_body p m = None) /\
  ((1 < max_time_step p)%Z -> simulate fuel nx ny p eta0 = None) /\
  ((max_time_step p <= 1)%Z ->
   exists m, simulate fuel nx ny p eta0 = Some (m, 0%nat) /\
             u_list m = [] /\ v_list m = [] /\ eta_list m = []).
Proof.
  intros He Hnx Hny Hp Hfuel.
  assert (forall m, WF nx ny m -> loop_body p m = None) as Hbody.
  { intros m Hm. rewrite (body_before_sample nx ny) by done.
    unfold sample. by rewrite Hp. }
  split; [exact Hbody |].
  pose proof (WF_start nx ny eta0 He) as Hm.
  pose proof (WF_with_velocities nx ny p _ Hm) as H1.
  unfold simulate.
  rewrite (pre_loop_run p nx ny _ (fun x => at2 (val (start nx ny eta0) x)))
    by (try done; intros x; by apply WF_val_tab).
  cbn [mbind option_bind]. unfold main_loop.
  destruct fuel as [| fuel]; [lia |]. cbn [while_loop].
  change (time_step (with_velocities p nx ny (start nx ny eta0))) with 1%Z.
  split.
  - intros Hmax. destruct (Z.ltb_spec 1 (max_time_step p)); [| lia].
    by rewrite (Hbody _ H1).
  - intros Hmax. destruct (Z.ltb_spec 1 (max_time_step p)); [lia |].
    by eexists.
Qed.

End RunFacts.

(** * Empty grids *)

Ltac solve_wf0 :=
  repeat (apply WF_poke; [| first [apply shaped_tab | by split]]); eassumption.

Ltac side0 := solve [ solve_wf0 | discriminate | assumption ].

Ltac norm_val0 nx ny :=
  repeat first
    [ rewrite (val_poke_eq nx ny) by side0
    | rewrite (val_poke_ne nx ny) by side0 ].

Section EmptyGrid.
Context {F : Type} {SF : Scalar F}.
Implicit Types (m : Machine F) (p : Constants F).

Lemma assign_raises {V : Type} nx ny (setter : Array F -> V -> option (Array F))
  x (e : Expr F V) m v :
  WF nx ny m -> e m = Some v -> setter (val m x) v = None ->
  assign setter x e m = None.
Proof.
  intros Hm He Hs. unfold assign. rewrite He. cbn [mbind option_bind].
  rewrite (WF_lookup nx ny m x Hm). cbn [mbind option_bind]. by rewrite Hs.
Qed.

Lemma fill_col_last_no_column nx (a : nat -> nat -> F) c :
  (0 < nx)%nat -> fill_col_last (tab nx 0 a) c = None.
Proof.
  intros Hnx. destruct nx as [| nx]; [lia |]. unfold fill_col_last.
  change (tab (S nx) 0 a) with (tab1 (S nx) (fun i => tab1 0 (a i))).
  rewrite length_tab1, replicate_tab1. unfold set_col_last.
  rewrite same_len_tab1, zip_with_tab1.
  rewrite <- (tab1_cons nx (fun i => (tab1 0 (a i), c))). reflexivity.
Qed.

Lemma momentum_run nx ny p m (a : Var -> nat -> nat -> F) :
  WF nx ny m -> (forall x, val m x = tab nx ny (a x)) ->
  exists U V, momentum p m = Some (poke (poke m u_np1 (tab nx ny U)) v_np1 (tab nx ny V)).
Proof.
  intros Hm Ha. unfold momentum, seq_stmt.
  erewrite assign_run; [cbn [mbind option_bind] | exact Hm | |].
  2: { repeat first [ eapply op2_run | eapply sl_run | eapply rd_run; exact Hm ].
       - rewrite !Ha. norm_tab. reflexivity.
       - rewrite !Ha. norm_tab. reflexivity. }
  2: { rewrite !Ha. norm_tab. reflexivity. }
  erewrite assign_run; [| solve_wf | |].
  2: { repeat first [ eapply op2_run | eapply sl_run | eapply rd_run; solve_wf ].
       - norm_val nx ny. rewrite !Ha. norm_tab. reflexivity.
       - norm_val nx ny. rewrite !Ha. norm_tab. reflexivity. }
  2: { norm_val nx ny. rewrite !Ha. norm_tab. reflexivity. }
  by eexists _, _.
Qed.

Lemma empty_grid_aux p nx ny m :
  WF nx ny m -> nx = 0%nat \/ ny = 0%nat ->
  loop_body p m = None /\ pre_loop p m = None.
Proof.
  intros Hm Hn.
  destruct (momentum_run nx ny p m (fun x => at2 (val m x)) Hm)
    as (U & V & Hmom); [intros x; by apply WF_val_tab |].
  assert (WF nx ny (poke (poke m u_np1 (tab nx ny U)) v_np1 (tab nx ny V)))
    as H2 by solve_wf.
  unfold loop_body, pre_loop.
  rewrite !(seq_run _ _ _ _ Hmom). unfold boundary_v_then_u, seq_stmt.
  destruct (decide (nx = 0%nat)) as [-> | Hnx].
  - (* no row: [u_np1[-1, :]] raises *)
    split.
    + erewrite (assign_run 0 ny); [cbn [mbind option_bind] | exact H2 | done |].
      2: { norm_val 0%nat ny. reflexivity. }
      erewrite (assign_raises 0 ny); [done | solve_wf0 | done |].
      norm_val0 0%nat ny. reflexivity.
    + erewrite (assign_raises 0 ny); [done | exact H2 | done |].
      norm_val 0%nat ny. reflexivity.
  - (* rows but no column: [v_np1[:, -1]] raises *)
    assert (ny = 0%nat) as -> by lia. split.
    + erewrite (assign_raises nx 0); [done | exact H2 | done |].
      norm_val nx 0%nat. apply fill_col_last_no_column. lia.
    + erewrite (assign_run nx 0); [cbn [mbind option_bind] | exact H2 | done |].
      2: { norm_val nx 0%nat. apply fill_row_last_tab. lia. }
      erewrite (assign_raises nx 0); [done | solve_wf | done |].
      norm_val nx 0%nat. apply fill_col_last_no_column. lia.
Qed.

(** X3 (empty grid).  When the grid has no point along an axis, the block
    before the loop and every run of the loop body raise: the boundary
    assignments [u_np1[-1, :] = 0.0] / [v_np1[:, -1] = 0.0] index an empty
    axis. *)
Theorem empty_grid_raises p nx ny m :
  WF nx ny m -> nx = 0%nat \/ ny = 0%nat ->
  loop_body p m = None /\ pre_loop p m = None.
Proof. apply empty_grid_aux. Qed.

End EmptyGrid.

(** * What a step depends on, and what it conserves *)

Section StepDependence.
Context {F : Type} {SF : Scalar F}.
Implicit Types (m : Machine F) (p : Constants F).

Lemma stepped_depends_on_fields p nx ny m1 m2 :
  WF nx ny m1 -> WF nx ny m2 ->
  val m1 u_n = val m2 u_n -> val m1 v_n = val m2 v_n ->
  val m1 eta_n = val m2 eta_n ->
  forall x, val (stepped p nx ny m1) x = val (stepped p nx ny m2) x.
Proof.
  intros H1 H2 Hu Hv He.
  destruct (stepped_values p nx ny m1 H1)
    as (A1 & A2 & A3 & A4 & A5 & A6 & A7 & A8 & A9 & A10 & A11 & A12).
  destruct (stepped_values p nx ny m2 H2)
    as (B1 & B2 & B3 & B4 & B5 & B6 & B7 & B8 & B9 & B10 & B11 & B12).
  assert (val (stepped p nx ny m1) u_np1 = val (stepped p nx ny m2) u_np1) as E1
    by (rewrite A1, B1; congruence).
  assert (val (stepped p nx ny m1) v_np1 = val (stepped p nx ny m2) v_np1) as E2
    by (rewrite A2, B2; congruence).
  assert (val (stepped p nx ny m1) h_e = val (stepped p nx ny m2) h_e) as E3
    by (rewrite A3, B3; congruence).
  assert (val (stepped p nx ny m1) h_w = val (stepped p nx ny m2) h_w) as E4
    by (rewrite A4, B4; congruence).
  assert (val (stepped p nx ny m1) h_n = val (stepped p nx ny m2) h_n) as E5
    by (rewrite A5, B5; congruence).
  assert (val (stepped p nx ny m1) h_s = val (stepped p nx ny m2) h_s) as E6
    by (rewrite A6, B6; congruence).
  assert (val (stepped p nx ny m1) uhwe = val (stepped p nx ny m2) uhwe) as E7
    by (rewrite A7, B7; congruence).
  assert (val (stepped p nx ny m1) vhns = val (stepped p nx ny m2) vhns) as E8
    by (rewrite A8, B8; congruence).
  assert (val (stepped p nx ny m1) eta_np1 = val (stepped p nx ny m2) eta_np1)
    as E9 by (rewrite A9, B9; congruence).
  intros x. destruct x; congruence.
Qed.

(** X4 (no state in the scratch arrays).  What a run of the body leaves in
    every array depends on the current fields [u_n], [v_n], [eta_n] only:
    two states that agree on these three end with equal contents under
    every name, whatever the next-level and scratch arrays held before. *)
Theorem step_depends_on_fields_only p nx ny m1 m2 :
  WF nx ny m1 -> WF nx ny m2 -> (0 < nx)%nat -> (0 < ny)%nat ->
  anim_interval p <> 0%Z ->
  val m1 u_n = val m2 u_n -> val m1 v_n = val m2 v_n ->
  val m1 eta_n = val m2 eta_n ->
  exists m1' m2', loop_body p m1 = Some m1' /\ loop_body p m2 = Some m2' /\
    forall x, val m1' x = val m2' x.
Proof.
  intros H1 H2 Hnx Hny Hp Hu Hv He.
  exists (stepped p nx ny m1), (stepped p nx ny m2).
  split; [by apply loop_body_run |]. split; [by apply loop_body_run |].
  by apply stepped_depends_on_fields.
Qed.

End StepDependence.

Section Conservation.
Context {F : Type} {SF : Scalar F} {EF : ExactScalar F}.
Implicit Types (m : Machine F) (p : Constants F).

Add Ring scalar_ring' : (F_R scalar_field).

Lemma full_tab nx ny (c : F) : full nx ny c = tab nx ny (fun _ _ => c).
Proof.
  unfold full, tab. rewrite replicate_tab1. apply tab1_ext. intros i _.
  apply replicate_tab1.
Qed.

Lemma stepped_flux_sums p nx ny m :
  WF nx ny m -> (0 < nx)%nat -> (0 < ny)%nat ->
  sum2 (val (stepped p nx ny m) uhwe) = zero /\
  sum2 (val (stepped p nx ny m) vhns) = zero.
Proof.
  intros Hm Hnx Hny.
  destruct (stepped_values p nx ny m Hm)
    as (Hu & Hv & He & Hw & Hn & Hs & Hx & Hy & _).
  split.
  - rewrite Hx, sum2_tab. unfold flux_x. destruct nx as [| n]; [lia |].
    apply flux_x_total.
    + intros i j Hi Hj. rewrite He, Hw, !at2_tab by lia.
      unfold depth_e, depth_w. destruct (Nat.eqb_spec i (S n - 1)); [lia | done].
    + intros j Hj. rewrite Hu, at2_tab by lia. unfold next_u.
      by replace (S n - 1)%nat with n by lia; rewrite Nat.eqb_refl.
  - rewrite Hy, sum2_tab. unfold flux_y. destruct ny as [| n]; [lia |].
    apply flux_y_total.
    + intros i j Hi Hj. rewrite Hn, Hs, !at2_tab by lia.
      unfold depth_n, depth_s. destruct (Nat.eqb_spec j (S n - 1)); [lia | done].
    + intros i Hi. rewrite Hv, at2_tab by lia. unfold next_v.
      by replace (S n - 1)%nat with n by lia; rewrite Nat.eqb_refl.
Qed.

Lemma stepped_sum p nx ny m :
  WF nx ny m -> (0 < nx)%nat -> (0 < ny)%nat ->
  sum2 (val (stepped p nx ny m) eta_n) = sum2 (val m eta_n).
Proof.
  intros Hm Hnx Hny.
  destruct (stepped_flux_sums p nx ny m Hm Hnx Hny) as [Sx Sy].
  pose proof (WF_stepped nx ny p m Hm) as Hm'.
  destruct (stepped_values p nx ny m Hm)
    as (_ & _ & _ & _ & _ & _ & _ & _ & Hnew & _ & _ & Hen).
  rewrite Hen, Hnew, sum2_tab. unfold next_eta. rewrite sum2_update.
  rewrite <- !sum2_tab.
  rewrite <- (WF_val_tab nx ny m eta_n Hm).
  rewrite <- (WF_val_tab nx ny _ uhwe Hm'), <- (WF_val_tab nx ny _ vhns Hm').
  rewrite Sx, Sy, !div_mul_inv. ring.
Qed.

(** X5 (flux divergences cancel).  After every run of the body the x flux
    divergences [uhwe] sum to zero over the grid, and so do the y flux
    divergences [vhns] (exact arithmetic): what leaves a cell enters its
    neighbour, and nothing crosses the walls. *)
Theorem flux_divergences_sum_to_zero p nx ny m :
  WF nx ny m -> (0 < nx)%nat -> (0 < ny)%nat -> anim_interval p <> 0%Z ->
  exists m', loop_body p m = Some m' /\
    sum2 (val m' uhwe) = zero /\ sum2 (val m' vhns) = zero.
Proof.
  intros Hm Hnx Hny Hp. exists (stepped p nx ny m).
  split; [by apply loop_body_run | by apply stepped_flux_sums].
Qed.

(** X6 (mass over a whole run).  In exact arithmetic the sum of [eta] over
    the grid after any number of runs of the body equals the initial
    sum. *)
Theorem mass_conserved_over_run p nx ny m n :
  WF nx ny m -> (0 < nx)%nat -> (0 < ny)%nat -> anim_interval p <> 0%Z ->
  exists mn, repeat_stmt n (loop_body p) m = Some mn /\
    sum2 (val mn eta_n) = sum2 (val m eta_n).
Proof.
  intros Hm Hnx Hny Hp. exists (steps p nx ny n m).
  split; [by apply repeat_steps |].
  induction n as [| n IH]; [done |].
  rewrite steps_S, stepped_sum; [exact IH | by apply WF_steps | done | done].
Qed.

Lemma stepped_at_rest p nx ny m c :
  WF nx ny m ->
  val m u_n = zeros nx ny -> val m v_n = zeros nx ny ->
  val m eta_n = full nx ny c ->
  val (stepped p nx ny m) u_n = zeros nx ny /\
  val (stepped p nx ny m) v_n = zeros nx ny /\
  val (stepped p nx ny m) eta_n = full nx ny c.
Proof.
  intros Hm Hu Hv He.
  destruct (stepped_values p nx ny m Hm)
    as (A1 & A2 & _ & _ & _ & _ & A7 & A8 & A9 & A10 & A11 & A12).
  assert (val (stepped p nx ny m) u_np1 = zeros nx ny) as E1.
  { rewrite A1, Hu, He, zeros_tab, full_tab. apply tab_ext. intros i j Hi Hj.
    unfold next_u. destruct (Nat.eqb_spec i (nx - 1)); [done |].
    rewrite !at2_tab by lia. ring. }
  assert (val (stepped p nx ny m) v_np1 = zeros nx ny) as E2.
  { rewrite A2, Hv, He, zeros_tab, full_tab. apply tab_ext. intros i j Hi Hj.
    unfold next_v. destruct (Nat.eqb_spec j (ny - 1)); [done |].
    rewrite !at2_tab by lia. ring. }
  split; [congruence |]. split; [congruence |].
  rewrite A12, A9, A7, A8, E1, E2, He, zeros_tab, full_tab.
  generalize (val (stepped p nx ny m) h_e) (val (stepped p nx ny m) h_w)
    (val (stepped p nx ny m) h_n) (val (stepped p nx ny m) h_s).
  intros he hw hn hs.
  apply tab_ext. intros i j Hi Hj. unfold next_eta.
  rewrite !at2_tab by lia. unfold flux_x, flux_y.
  destruct i as [| i], j as [| j]; rewrite !at2_tab by lia;
    rewrite !div_mul_inv; ring.
Qed.

(** X7 (water at rest).  In exact arithmetic a flat surface at rest is a
    steady state: if [u_n] and [v_n] are zero and [eta_n] has the same value
    in every cell (zero included), they are the same after any number of
    runs of the body. *)
Theorem water_at_rest_is_steady p nx ny m c n :
  WF nx ny m -> (0 < nx)%nat -> (0 < ny)%nat -> anim_interval p <> 0%Z ->
  val m u_n = zeros nx ny -> val m v_n = zeros nx ny ->
  val m eta_n = full nx ny c ->
  exists mn, repeat_stmt n (loop_body p) m = Some mn /\
    val mn u_n = zeros nx ny /\ val mn v_n = zeros nx ny /\
    val mn eta_n = full nx ny c.
Proof.
  intros Hm Hnx Hny Hp Hu Hv He. exists (steps p nx ny n m).
  split; [by apply repeat_steps |].
  induction n as [| n IH]; [done |].
  destruct IH as (Iu & Iv & Ie). rewrite steps_S.
  apply stepped_at_rest; try done. by apply WF_steps.
Qed.

End Conservation.

(** * The recorded sequence *)

Section Recording.
Context {F : Type} {SF : Scalar F}.
Implicit Types (m : Machine F) (p : Constants F).

Lemma sampled_skip p m :
  (time_step m mod anim_interval p <> 0)%Z -> sampled p m = m.
Proof.
  intros Hs. unfold sampled.
  by destruct (Z.eqb_spec (time_step m mod anim_interval p) 0).
Qed.

(** The lists after one more run. *)
Lemma lists_stepped p nx ny m :
  let m' := stepped p nx ny m in
  let new x := if decide ((time_step m + 1) mod anim_interval p = 0)%Z
               then [env m' x] else [] in
  u_list m' = u_list m ++ new u_n /\ v_list m' = v_list m ++ new v_n /\
  eta_list m' = eta_list m ++ new eta_n.
Proof.
  cbv zeta. destruct (lists_before_sample p nx ny m) as (Ht & Hu & Hv & He).
  unfold stepped. case_decide as Hs.
  - rewrite <- Ht in Hs. apply (sampled_lists p) in Hs.
    by rewrite Hu, Hv, He in Hs.
  - rewrite <- Ht in Hs. rewrite (sampled_skip p _ Hs), Hu, Hv, He.
    by rewrite !app_nil_r.
Qed.

Lemma sampled_runs_S p t0 n :
  sampled_runs p t0 (S n)
  = sampled_runs p t0 n
    ++ (if decide ((t0 + Z.of_nat (S n)) mod anim_interval p = 0)%Z
        then [S n] else []).
Proof.
  unfold sampled_runs. rewrite seq_S, filter_app. by f_equal.
Qed.

Lemma lists_steps p nx ny n m :
  let js := sampled_runs p (time_step m) n in
  let refs x := (fun j => env (steps p nx ny j m) x) <$> js in
  u_list (steps p nx ny n m) = u_list m ++ refs u_n /\
  v_list (steps p nx ny n m) = v_list m ++ refs v_n /\
  eta_list (steps p nx ny n m) = eta_list m ++ refs eta_n.
Proof.
  cbv zeta. induction n as [| n (Iu & Iv & Ie)].
  - unfold sampled_runs. simpl. by rewrite !app_nil_r.
  - destruct (lists_stepped p nx ny (steps p nx ny n m)) as (Hu & Hv & He).
    rewrite time_step_steps in Hu, Hv, He.
    rewrite steps_S, Hu, Hv, He, Iu, Iv, Ie, sampled_runs_S, !fmap_app.
    replace (time_step m + Z.of_nat (S n))%Z
      with (time_step m + Z.of_nat n + 1)%Z by lia.
    rewrite <- !steps_S, <- !app_assoc. by case_decide.
Qed.

Lemma steps_add p nx ny j k m :
  steps p nx ny (k + j) m = steps p nx ny k (steps p nx ny j m).
Proof. unfold steps. apply Nat.iter_add. Qed.

Lemma steps_frozen p nx ny k : forall m l,
  frozen m l ->
  frozen (steps p nx ny k m) l /\ heap (steps p nx ny k m) !! l = heap m !! l.
Proof.
  induction k as [| k IH]; intros m l Hl; [done |].
  destruct (IH m l Hl) as [Hf Hh]. rewrite steps_S. split.
  - by apply stepped_frozen.
  - rewrite stepped_heap by done. exact Hh.
Qed.

(** The object a current-level name is bound to after run [j] keeps its
    contents through the later runs. *)
Lemma steps_keeps_field p nx ny n j m x :
  WF nx ny m -> (j <= n)%nat -> buffer x = false ->
  heap (steps p nx ny n m) !! env (steps p nx ny j m) x
  = Some (val (steps p nx ny j m) x).
Proof.
  intros Hm Hj Hx. replace n with ((n - j) + j)%nat by lia.
  rewrite steps_add.
  pose proof (WF_steps nx ny p j m Hm) as Hmj.
  destruct (steps_frozen p nx ny (n - j) (steps p nx ny j m)
              (env (steps p nx ny j m) x)) as [_ Hh].
  - by apply (WF_frozen nx ny).
  - rewrite Hh. by apply (WF_lookup nx ny).
Qed.

Lemma sampled_runs_bound p t0 n j : j ∈ sampled_runs p t0 n -> (1 <= j <= n)%nat.
Proof.
  unfold sampled_runs. intros [_ Hj%elem_of_seq]%list_elem_of_filter. lia.
Qed.

Lemma deref_steps p nx ny n m x :
  WF nx ny m -> buffer x = false ->
  deref (steps p nx ny n m)
    ((fun j => env (steps p nx ny j m) x) <$> sampled_runs p (time_step m) n)
  = (fun j => Some (val (steps p nx ny j m) x)) <$> sampled_runs p (time_step m) n.
Proof.
  intros Hm Hx. unfold deref.
  change (map ?f ?l) with (fmap (M := list) f l).
  rewrite <- list_fmap_compose. apply list_fmap_ext.
  intros i j Hj. apply list_elem_of_lookup_2, sampled_runs_bound in Hj. simpl.
  apply steps_keeps_field; [done | lia | done].
Qed.

(** X8 (what is recorded).  At the end of a run of [n] steps that starts
    with empty lists, the three lists hold, in order and with nothing else,
    the fields [u_n], [v_n], [eta_n] as they were at the end of each step
    whose index is a multiple of [anim_interval]. *)
Theorem recorded_sequence p nx ny m n :
  WF nx ny m -> (0 < nx)%nat -> (0 < ny)%nat -> anim_interval p <> 0%Z ->
  u_list m = [] -> v_list m = [] -> eta_list m = [] ->
  let field x j := Some (val (steps p nx ny j m) x) in
  (forall j, repeat_stmt j (loop_body p) m = Some (steps p nx ny j m)) /\
  snapshots (steps p nx ny n m)
  = (field u_n <$> sampled_runs p (time_step m) n,
     field v_n <$> sampled_runs p (time_step m) n,
     field eta_n <$> sampled_runs p (time_step m) n).
Proof.
  intros Hm Hnx Hny Hp Hu Hv He. cbv zeta.
  split; [intros j; by apply repeat_steps |].
  destruct (lists_steps p nx ny n m) as (Lu & Lv & Le).
  unfold snapshots. rewrite Lu, Lv, Le, Hu, Hv, He. cbn [app].
  by rewrite !deref_steps.
Qed.

(** *** How many samples *)

Lemma div_succ (t a : Z) :
  (0 < a)%Z ->
  ((t + 1) / a = t / a + (if decide ((t + 1) mod a = 0) then 1 else 0))%Z.
Proof.
  intros Ha. case_decide as Hm; Z.div_mod_to_equations; nia.
Qed.

End Recording.

Section Counting.
Context {F : Type} {SF : Scalar F}.
Implicit Types (m : Machine F) (p : Constants F).

Lemma length_sampled_runs p t0 n :
  (0 < anim_interval p)%Z ->
  length (sampled_runs p t0 n)
  = Z.to_nat ((t0 + Z.of_nat n) / anim_interval p - t0 / anim_interval p).
Proof.
  intros Ha. induction n as [| n IH].
  - unfold sampled_runs. simpl. rewrite Z.add_0_r. lia.
  - rewrite sampled_runs_S, length_app, IH.
    replace (t0 + Z.of_nat (S n))%Z with (t0 + Z.of_nat n + 1)%Z by lia.
    rewrite (div_succ (t0 + Z.of_nat n) _ Ha).
    assert (t0 / anim_interval p <= (t0 + Z.of_nat n) / anim_interval p)%Z
      by (apply Z.div_le_mono; lia).
    case_decide; simpl; lia.
Qed.

(** The run is the block before the loop followed by [max_time_step - 1]
    runs of the body. *)
Lemma simulate_steps p nx ny (eta0 : Array F) fuel :
  shaped nx ny eta0 -> (0 < nx)%nat -> (0 < ny)%nat -> anim_interval p <> 0%Z ->
  (Z.to_nat (max_time_step p - 1) < fuel)%nat ->
  let m0 := with_velocities p nx ny (start nx ny eta0) in
  pre_loop p (start nx ny eta0) = Some m0 /\ WF nx ny m0 /\
  simulate fuel nx ny p eta0
  = Some (steps p nx ny (Z.to_nat (max_time_step p - 1)) m0,
          Z.to_nat (max_time_step p - 1)).
Proof.
  intros He Hnx Hny Hp Hfuel. cbv zeta.
  pose proof (WF_start nx ny eta0 He) as Hm.
  pose proof (WF_with_velocities nx ny p _ Hm) as H0.
  assert (pre_loop p (start nx ny eta0)
          = Some (with_velocities p nx ny (start nx ny eta0))) as Hpre
    by (apply (pre_loop_run p nx ny _ (fun x => at2 (val (start nx ny eta0) x)));
        try done; intros x; by apply WF_val_tab).
  split; [exact Hpre |]. split; [exact H0 |].
  unfold simulate. rewrite Hpre. cbn [mbind option_bind]. unfold main_loop.
  destruct (while_loop_run p nx ny (Z.to_nat (max_time_step p - 1)) fuel
              (with_velocities p nx ny (start nx ny eta0)))
    as (mk & Hw & Hr & _); try done.
  rewrite (repeat_steps p nx ny) in Hr by done. by injection Hr as <-.
Qed.

(** X9 (number of samples).  For a positive sampling interval the run ends
    with [max_time_step/anim_interval - 1/anim_interval] entries (integer
    divisions) in each of the three lists: [max_time_step/anim_interval]
    when the interval is at least 2. *)
Theorem number_of_snapshots p nx ny (eta0 : Array F) fuel :
  shaped nx ny eta0 -> (0 < nx)%nat -> (0 < ny)%nat ->
  (0 < anim_interval p)%Z ->
  (Z.to_nat (max_time_step p - 1) < fuel)%nat ->
  let count := Z.to_nat (max_time_step p / anim_interval p - 1 / anim_interval p) in
  exists m, simulate fuel nx ny p eta0 = Some (m, Z.to_nat (max_time_step p - 1)) /\
    length (u_list m) = count /\ length (v_list m) = count /\
    length (eta_list m) = count.
Proof.
  intros He Hnx Hny Ha Hfuel. cbv zeta.
  destruct (simulate_steps p nx ny eta0 fuel) as (_ & H0 & Hsim);
    [done | done | done | lia | done |].
  eexists. split; [exact Hsim |].
  destruct (lists_steps p nx ny (Z.to_nat (max_time_step p - 1))
              (with_velocities p nx ny (start nx ny eta0))) as (Lu & Lv & Le).
  rewrite Lu, Lv, Le.
  change (u_list (with_velocities p nx ny (start nx ny eta0))) with (@nil nat).
  change (v_list (with_velocities p nx ny (start nx ny eta0))) with (@nil nat).
  change (eta_list (with_velocities p nx ny (start nx ny eta0))) with (@nil nat).
  cbn [app]. rewrite !length_fmap, length_sampled_runs by done.
  change (time_step (with_velocities p nx ny (start nx ny eta0))) with 1%Z.
  assert (Z.to_nat ((1 + Z.of_nat (Z.to_nat (max_time_step p - 1))) / anim_interval p
                    - 1 / anim_interval p)
          = Z.to_nat (max_time_step p / anim_interval p - 1 / anim_interval p))
    as ->; [| done].
  destruct (Z.le_gt_cases 1 (max_time_step p)) as [Hmax | Hmax].
  - by replace (1 + Z.of_nat (Z.to_nat (max_time_step p - 1)))%Z
      with (max_time_step p) by lia.
  - replace (Z.of_nat (Z.to_nat (max_time_step p - 1))) with 0%Z by lia.
    assert (max_time_step p / anim_interval p <= 1 / anim_interval p)%Z
      by (apply Z.div_le_mono; lia).
    rewrite Z.add_0_r. lia.
Qed.

(** *** The recorded objects *)

Lemma length_heap_before_rotation p nx ny m :
  length (heap (with_eta p nx ny (with_fluxes nx ny
            (with_depths p nx ny (with_velocities p nx ny m)))))
  = length (heap m).
Proof.
  unfold with_eta. rewrite length_heap_poke.
  unfold with_fluxes. rewrite !length_heap_poke.
  unfold with_depths. rewrite !length_heap_poke.
  unfold with_velocities. by rewrite !length_heap_poke.
Qed.

Lemma rotated_objects m :
  env (rotated m) u_n = length (heap m) /\
  env (rotated m) v_n = S (length (heap m)) /\
  env (rotated m) eta_n = S (S (length (heap m))) /\
  length (heap (rotated m)) = S (S (S (length (heap m)))).
Proof.
  unfold rotated, alloc. simpl. rewrite !length_app. simpl.
  repeat split; lia.
Qed.

Lemma stepped_objects p nx ny m :
  env (stepped p nx ny m) u_n = length (heap m) /\
  env (stepped p nx ny m) v_n = S (length (heap m)) /\
  env (stepped p nx ny m) eta_n = S (S (length (heap m))) /\
  length (heap (stepped p nx ny m)) = S (S (S (length (heap m)))).
Proof.
  unfold stepped. rewrite env_sampled, heap_sampled, env_ticked, heap_ticked.
  destruct (rotated_objects (with_eta p nx ny (with_fluxes nx ny
              (with_depths p nx ny (with_velocities p nx ny m)))))
    as (Hu & Hv & He & Hl).
  rewrite Hu, Hv, He, Hl. by rewrite !length_heap_before_rotation.
Qed.

Lemma steps_objects p nx ny j m :
  env (steps p nx ny (S j) m) u_n = (length (heap m) + 3 * j)%nat /\
  env (steps p nx ny (S j) m) v_n = (length (heap m) + 3 * j + 1)%nat /\
  env (steps p nx ny (S j) m) eta_n = (length (heap m) + 3 * j + 2)%nat /\
  length (heap (steps p nx ny (S j) m)) = (length (heap m) + 3 * j + 3)%nat.
Proof.
  induction j as [| j (_ & _ & _ & IH)].
  - rewrite steps_S.
    destruct (stepped_objects p nx ny (steps p nx ny 0 m)) as (Hu & Hv & He & Hl).
    rewrite Hu, Hv, He, Hl. change (steps p nx ny 0 m) with m. repeat split; lia.
  - rewrite steps_S.
    destruct (stepped_objects p nx ny (steps p nx ny (S j) m))
      as (Hu & Hv & He & Hl).
    rewrite Hu, Hv, He, Hl, IH. repeat split; lia.
Qed.

(** X10 (one object per snapshot).  In a run that starts with empty lists,
    no array object is recorded twice: the entries of [u_list], [v_list]
    and [eta_list] taken together are pairwise distinct objects. *)
Theorem snapshots_share_no_object p nx ny m n :
  WF nx ny m -> (0 < nx)%nat -> (0 < ny)%nat -> anim_interval p <> 0%Z ->
  u_list m = [] -> v_list m = [] -> eta_list m = [] ->
  exists mn, repeat_stmt n (loop_body p) m = Some mn /\
    NoDup (u_list mn ++ v_list mn ++ eta_list mn).
Proof.
  intros Hm Hnx Hny Hp Hu Hv He. exists (steps p nx ny n m).
  split; [by apply repeat_steps |].
  destruct (lists_steps p nx ny n m) as (Lu & Lv & Le).
  rewrite Lu, Lv, Le, Hu, Hv, He. cbn [app].
  set (js := sampled_runs p (time_step m) n).
  assert (NoDup js) as Hjs by (apply NoDup_filter, NoDup_seq).
  assert (forall j, j ∈ js -> exists i, j = S i) as Hpos.
  { intros j Hj%sampled_runs_bound. exists (j - 1)%nat. lia. }
  assert (forall x c, (forall i, env (steps p nx ny (S i) m) x
                                 = (length (heap m) + 3 * i + c)%nat) ->
            NoDup ((fun j => env (steps p nx ny j m) x) <$> js)) as Hnd.
  { intros x c Hx. apply NoDup_fmap_2_strong; [| done].
    intros j1 j2 [i1 ->]%Hpos [i2 ->]%Hpos. rewrite !Hx. lia. }
  assert (forall x y cx cy, cx <> cy -> (cx < 3)%nat -> (cy < 3)%nat ->
            (forall i, env (steps p nx ny (S i) m) x
                       = (length (heap m) + 3 * i + cx)%nat) ->
            (forall i, env (steps p nx ny (S i) m) y
                       = (length (heap m) + 3 * i + cy)%nat) ->
            forall l, l ∈ (fun j => env (steps p nx ny j m) x) <$> js ->
                      l ∉ (fun j => env (steps p nx ny j m) y) <$> js) as Hdis.
  { intros x y cx cy Hc Hcx Hcy Hx Hy l.
    intros (j1 & -> & [i1 ->]%Hpos)%list_elem_of_fmap.
    intros (j2 & Heq & [i2 ->]%Hpos)%list_elem_of_fmap.
    rewrite Hx, Hy in Heq. lia. }
  assert (forall i, env (steps p nx ny (S i) m) u_n
                    = (length (heap m) + 3 * i + 0)%nat) as Eu
    by (intros i; destruct (steps_objects p nx ny i m) as (E & _); lia).
  assert (forall i, env (steps p nx ny (S i) m) v_n
                    = (length (heap m) + 3 * i + 1)%nat) as Ev
    by (intros i; by destruct (steps_objects p nx ny i m) as (_ & E & _)).
  assert (forall i, env (steps p nx ny (S i) m) eta_n
                    = (length (heap m) + 3 * i + 2)%nat) as Ee
    by (intros i; by destruct (steps_objects p nx ny i m) as (_ & _ & E & _)).
  apply NoDup_app. split; [by apply (Hnd u_n 0%nat) |]. split.
  - intros l Hl. rewrite elem_of_app. intros [Hl2 | Hl2].
    + apply (Hdis u_n v_n 0%nat 1%nat) in Hl; try done; lia.
    + apply (Hdis u_n eta_n 0%nat 2%nat) in Hl; try done; lia.
  - apply NoDup_app. split; [by apply (Hnd v_n 1%nat) |]. split.
    + intros l Hl. apply (Hdis v_n eta_n 1%nat 2%nat); try done; lia.
    + by apply (Hnd eta_n 2%nat).
Qed.

End Counting.

(** * More on start-up *)

Section StartupMore.
Local Open Scope R_scope.

Lemma coordinate_step L n i :
  (2 <= n)%Z -> coordinate L n i = - L / 2 + INR i * (L / IZR (n - 1)).
Proof.
  intros Hn. unfold coordinate.
  assert (IZR (n - 1) <> 0) by (apply not_0_IZR; lia). by field.
Qed.

(** X11 (the grid).  On a grid of at least 2 by 2 points the coordinate
    arrays have the shape of the fields, [X[i,j] = -L_x/2 + i*dx] whatever
    [j], and [Y[i,j] = -L_y/2 + j*dy] whatever [i]: the spacings [dx], [dy]
    of lines 145-146 are the steps of the two [np.linspace] axes. *)
Theorem mesh_coordinates (c : Config) :
  (2 <= Cfg.N_x c)%Z -> (2 <= Cfg.N_y c)%Z ->
  let nx := Z.to_nat (Cfg.N_x c) in
  let ny := Z.to_nat (Cfg.N_y c) in
  exists k X Y, constants c = Some k /\ mesh c = Some (X, Y) /\
    shaped nx ny X /\ shaped nx ny Y /\
    forall i j, (i < nx)%nat -> (j < ny)%nat ->
      at2 X i j = - Cfg.L_x c / 2 + INR i * dx k /\
      at2 Y i j = - Cfg.L_y c / 2 + INR j * dy k.
Proof.
  intros Hx Hy. cbv zeta.
  destruct (initial_state_run c Hx Hy) as (k & Hk & _).
  destruct (constants_fields c k Hk) as (Hdx & Hdy & _).
  exists k,
    (tab (Z.to_nat (Cfg.N_x c)) (Z.to_nat (Cfg.N_y c))
       (fun i _ => coordinate (Cfg.L_x c) (Cfg.N_x c) i)),
    (tab (Z.to_nat (Cfg.N_x c)) (Z.to_nat (Cfg.N_y c))
       (fun _ j => coordinate (Cfg.L_y c) (Cfg.N_y c) j)).
  split; [done |]. split.
  { unfold mesh, linspace.
    destruct (Z.ltb_spec (Cfg.N_x c) 0); [lia |].
    destruct (Z.ltb_spec (Cfg.N_y c) 0); [lia |].
    cbn [mbind option_bind]. unfold meshgrid. cbn [fst snd].
    rewrite !length_tab1.
    destruct (Z.to_nat (Cfg.N_x c)) as [| nx] eqn:Hnx; [lia |].
    destruct (Z.to_nat (Cfg.N_y c)) as [| ny] eqn:Hny; [lia |].
    set (x := fun i : nat => _). set (y := fun i : nat => _).
    assert (replicate (S ny) (tab1 (S nx) x) = tab (S ny) (S nx) (fun _ i => x i))
      as -> by (unfold tab; by rewrite replicate_tab1).
    assert (map (fun yj : R => replicate (S nx) yj) (tab1 (S ny) y)
            = tab (S ny) (S nx) (fun j _ => y j)) as ->.
    { change (map ?f) with (fmap (M := list) f). rewrite fmap_tab1. unfold tab.
      apply tab1_ext. intros j _. apply replicate_tab1. }
    by rewrite !transpose_tab. }
  split; [apply shaped_tab |]. split; [apply shaped_tab |].
  intros i j Hi Hj. rewrite !at2_tab by done.
  rewrite !coordinate_step by done. by rewrite Hdx, Hdy.
Qed.

Lemma transpose_empty_rows n : transpose (replicate n []) = [].
Proof. destruct n as [| [| n]]; done. Qed.

Lemma initial_state_no_x (c : Config) :
  Cfg.N_x c = 0%Z -> (2 <= Cfg.N_y c \/ Cfg.N_y c = 0)%Z ->
  exists k, initial_state c = Some (k, start 0 (Z.to_nat (Cfg.N_y c)) []).
Proof.
  intros Hx Hy. unfold initial_state, constants, spacing, linspace.
  destruct (Z.eqb_spec (Cfg.N_x c - 1) 0); [lia |].
  destruct (Z.eqb_spec (Cfg.N_y c - 1) 0); [lia |].
  destruct (Z.ltb_spec (Cfg.N_x c) 0); [lia |].
  destruct (Z.ltb_spec (Cfg.N_y c) 0); [lia |].
  cbn [mbind option_bind]. eexists. unfold meshgrid. cbn [fst snd].
  replace (Z.to_nat (Cfg.N_x c)) with 0%nat by lia.
  change (tab1 0 _) with (@nil R). cbn [length].
  change (map ?f) with (fmap (M := list) f). rewrite fmap_tab1.
  rewrite (tab1_ext _ _ (fun _ => @nil R)) by done.
  rewrite <- !replicate_tab1, !transpose_empty_rows. reflexivity.
Qed.

(** X12 (too few grid points).  The run raises before the loop is reached
    when an axis has exactly one point (division by zero in the spacing), a
    negative number of points ([np.linspace]), or when [N_x = 0] (the
    boundary assignment [u_np1[-1, :] = 0.0] of line 241). *)
Theorem too_few_points_raise (c : Config) fuel :
  (Cfg.N_x c < 2 \/ Cfg.N_y c = 1 \/ Cfg.N_y c < 0)%Z -> program fuel c = None.
Proof.
  intros Hn.
  destruct (Z.eq_dec (Cfg.N_x c) 1%Z) as [Hx1 | Hx1];
    [apply single_point_axis_raises; by left |].
  destruct (Z.eq_dec (Cfg.N_y c) 1%Z) as [Hy1 | Hy1];
    [apply single_point_axis_raises; by right |].
  destruct (Z.ltb_spec (Cfg.N_x c) 0%Z) as [Hx | Hx].
  { unfold program, initial_state, constants, spacing, linspace.
    destruct (Z.eqb_spec (Cfg.N_x c - 1) 0); [lia |].
    destruct (Z.eqb_spec (Cfg.N_y c - 1) 0); [lia |].
    cbn [mbind option_bind].
    by destruct (Z.ltb_spec (Cfg.N_x c) 0); [| lia]. }
  destruct (Z.ltb_spec (Cfg.N_y c) 0%Z) as [Hy | Hy].
  { unfold program, initial_state, constants, spacing, linspace.
    destruct (Z.eqb_spec (Cfg.N_x c - 1) 0); [lia |].
    destruct (Z.eqb_spec (Cfg.N_y c - 1) 0); [lia |].
    cbn [mbind option_bind].
    destruct (Z.ltb_spec (Cfg.N_x c) 0); [lia |]. cbn [mbind option_bind].
    by destruct (Z.ltb_spec (Cfg.N_y c) 0); [| lia]. }
  assert (Cfg.N_x c = 0%Z) as Hx0 by lia.
  destruct (initial_state_no_x c Hx0) as (k & Hi); [lia |].
  unfold program. rewrite Hi. cbn [mbind option_bind fst snd].
  assert (WF 0 (Z.to_nat (Cfg.N_y c)) (start 0 (Z.to_nat (Cfg.N_y c)) []))
    as Hwf by (apply WF_start; by split).
  destruct (empty_grid_aux k _ _ _ Hwf) as [_ Hpre]; [by left |].
  by rewrite Hpre.
Qed.


End StartupMore.

(** * The two axes are treated alike *)

Section AxisSymmetry.
Context {F : Type} {SF : Scalar F} {EF : ExactScalar F}.
Implicit Types (m : Machine F) (p : Constants F).

Add Ring scalar_ring'' : (F_R scalar_field).

Ltac mirror_tabs :=
  intros i j Hi Hj; rewrite !at2_tab by lia.

Ltac mirror_cases :=
  repeat match goal with
         | |- context [Nat.eqb ?x ?y] => destruct (Nat.eqb_spec x y)
         | |- context [match ?k with O => _ | S _ => _ end] => is_var k; destruct k
         end;
  try lia.

Lemma stepped_mirrored p nx ny m mT :
  WF nx ny m -> WF ny nx mT ->
  mirrored nx ny (val m u_n) (val mT v_n) ->
  mirrored nx ny (val m v_n) (val mT u_n) ->
  mirrored nx ny (val m eta_n) (val mT eta_n) ->
  mirrored nx ny (val (stepped p nx ny m) u_n)
                 (val (stepped (swap_axes p) ny nx mT) v_n) /\
  mirrored nx ny (val (stepped p nx ny m) v_n)
                 (val (stepped (swap_axes p) ny nx mT) u_n) /\
  mirrored nx ny (val (stepped p nx ny m) eta_n)
                 (val (stepped (swap_axes p) ny nx mT) eta_n).
Proof.
  intros Hm HmT Huv Hvu Hee.
  destruct (stepped_values p nx ny m Hm)
    as (A1 & A2 & A3 & A4 & A5 & A6 & A7 & A8 & A9 & A10 & A11 & A12).
  destruct (stepped_values (swap_axes p) ny nx mT HmT)
    as (B1 & B2 & B3 & B4 & B5 & B6 & B7 & B8 & B9 & B10 & B11 & B12).
  revert A1 A2 A3 A4 A5 A6 A7 A8 A9 A10 A11 A12
         B1 B2 B3 B4 B5 B6 B7 B8 B9 B10 B11 B12.
  generalize (val (stepped p nx ny m) u_n) (val (stepped p nx ny m) v_n)
    (val (stepped p nx ny m) eta_n) (val (stepped p nx ny m) u_np1)
    (val (stepped p nx ny m) v_np1) (val (stepped p nx ny m) eta_np1)
    (val (stepped p nx ny m) h_e) (val (stepped p nx ny m) h_w)
    (val (stepped p nx ny m) h_n) (val (stepped p nx ny m) h_s)
    (val (stepped p nx ny m) uhwe) (val (stepped p nx ny m) vhns).
  intros u' v' e' u1 v1 e1 he hw hn hs fx fy.
  generalize (val (stepped (swap_axes p) ny nx mT) u_n)
    (val (stepped (swap_axes p) ny nx mT) v_n)
    (val (stepped (swap_axes p) ny nx mT) eta_n)
    (val (stepped (swap_axes p) ny nx mT) u_np1)
    (val (stepped (swap_axes p) ny nx mT) v_np1)
    (val (stepped (swap_axes p) ny nx mT) eta_np1)
    (val (stepped (swap_axes p) ny nx mT) h_e)
    (val (stepped (swap_axes p) ny nx mT) h_w)
    (val (stepped (swap_axes p) ny nx mT) h_n)
    (val (stepped (swap_axes p) ny nx mT) h_s)
    (val (stepped (swap_axes p) ny nx mT) uhwe)
    (val (stepped (swap_axes p) ny nx mT) vhns).
  intros uT' vT' eT' uT1 vT1 eT1 heT hwT hnT hsT fxT fyT.
  intros A1 A2 A3 A4 A5 A6 A7 A8 A9 A10 A11 A12
         B1 B2 B3 B4 B5 B6 B7 B8 B9 B10 B11 B12.
  assert (mirrored nx ny u1 vT1) as R1.
  { subst u1 vT1. mirror_tabs. unfold next_u, next_v. cbn [swap_axes dx dy g dt].
    mirror_cases; rewrite ?Huv, ?Hee by lia; reflexivity. }
  assert (mirrored nx ny v1 uT1) as R2.
  { subst v1 uT1. mirror_tabs. unfold next_u, next_v. cbn [swap_axes dx dy g dt].
    mirror_cases; rewrite ?Hvu, ?Hee by lia; reflexivity. }
  assert (mirrored nx ny he hnT) as R3.
  { subst he hnT. mirror_tabs. unfold depth_e, depth_n, face_x, face_y.
    cbn [swap_axes H]. mirror_cases; rewrite ?R1, ?Hee by lia; reflexivity. }
  assert (mirrored nx ny hw hsT) as R4.
  { subst hw hsT. mirror_tabs. unfold depth_w, depth_s, face_x, face_y.
    cbn [swap_axes H]. mirror_cases; rewrite ?R1, ?Hee by lia; reflexivity. }
  assert (mirrored nx ny hn heT) as R5.
  { subst hn heT. mirror_tabs. unfold depth_e, depth_n, face_x, face_y.
    cbn [swap_axes H]. mirror_cases; rewrite ?R2, ?Hee by lia; reflexivity. }
  assert (mirrored nx ny hs hwT) as R6.
  { subst hs hwT. mirror_tabs. unfold depth_w, depth_s, face_x, face_y.
    cbn [swap_axes H]. mirror_cases; rewrite ?R2, ?Hee by lia; reflexivity. }
  assert (mirrored nx ny fx fyT) as R7.
  { subst fx fyT. mirror_tabs. unfold flux_x, flux_y.
    mirror_cases; rewrite ?R1, ?R3, ?R4 by lia; reflexivity. }
  assert (mirrored nx ny fy fxT) as R8.
  { subst fy fxT. mirror_tabs. unfold flux_x, flux_y.
    mirror_cases; rewrite ?R2, ?R5, ?R6 by lia; reflexivity. }
  split; [by rewrite A10, B11 |]. split; [by rewrite A11, B10 |].
  rewrite A12, B12. subst e1 eT1. mirror_tabs. unfold next_eta.
  cbn [swap_axes dx dy dt]. rewrite Hee, R7, R8 by lia. ring.
Qed.

(** X14 (the axes are interchangeable).  In exact arithmetic, exchange the
    two axes (transpose [eta_n], exchange [u_n] with the transposed [v_n],
    and [dx] with [dy]): one run of the body on the exchanged state gives
    the exchanged result of one run on the original state. *)
Theorem step_commutes_with_axis_swap p nx ny m mT :
  WF nx ny m -> WF ny nx mT -> (0 < nx)%nat -> (0 < ny)%nat ->
  anim_interval p <> 0%Z ->
  mirrored nx ny (val m u_n) (val mT v_n) ->
  mirrored nx ny (val m v_n) (val mT u_n) ->
  mirrored nx ny (val m eta_n) (val mT eta_n) ->
  exists m' mT', loop_body p m = Some m' /\
    loop_body (swap_axes p) mT = Some mT' /\
    mirrored nx ny (val m' u_n) (val mT' v_n) /\
    mirrored nx ny (val m' v_n) (val mT' u_n) /\
    mirrored nx ny (val m' eta_n) (val mT' eta_n).
Proof.
  intros Hm HmT Hnx Hny Hp Huv Hvu Hee.
  exists (stepped p nx ny m), (stepped (swap_axes p) ny nx mT).
  split; [by apply loop_body_run |]. split; [by apply loop_body_run |].
  by apply stepped_mirrored.
Qed.

End AxisSymmetry.

(** * The further properties on the small run *)

Lemma body_never_raises_witness :
  exists mn, repeat_stmt 2 (loop_body demo_constants) demo_state = Some mn /\
    time_step mn = 3%Z.
Proof.
  destruct (body_never_raises demo_constants 2 2 demo_state 2 demo_state_WF)
    as (mn & Hrun & _ & _ & Ht); [lia | lia | done |].
  exists mn. split; [exact Hrun | exact Ht].
Defined.

Lemma zero_interval_raises_witness :
  simulate 5 2 2
    {| g := Q2Qc 10; H := Q2Qc 100; dx := Q2Qc 1; dy := Q2Qc 1;
       dt := Q2Qc (1 # 100); max_time_step := 3; anim_interval := 0 |}
    demo_eta = None.
Proof.
  destruct (zero_interval_raises
              {| g := Q2Qc 10; H := Q2Qc 100; dx := Q2Qc 1; dy := Q2Qc 1;
                 dt := Q2Qc (1 # 100); max_time_step := 3; anim_interval := 0 |}
              2 2 demo_eta 5 demo_eta_shaped) as (_ & Hraise & _);
    [lia | lia | reflexivity | lia |].
  apply Hraise. simpl. lia.
Defined.

Lemma empty_grid_raises_witness :
  loop_body demo_constants (start 0 2 []) = None /\
  pre_loop demo_constants (start 0 2 []) = None.
Proof.
  apply (empty_grid_raises demo_constants 0 2 (start 0 2 [])).
  - apply WF_start. split; [reflexivity | constructor].
  - left. reflexivity.
Defined.

Lemma step_depends_on_fields_only_witness :
  exists m1' m2', loop_body demo_constants demo_state = Some m1' /\
    loop_body demo_constants (poke demo_state uhwe demo_eta) = Some m2' /\
    forall x, val m1' x = val m2' x.
Proof.
  apply (step_depends_on_fields_only demo_constants 2 2 demo_state
           (poke demo_state uhwe demo_eta) demo_state_WF).
  - apply WF_poke; [apply demo_state_WF | apply demo_eta_shaped].
  - lia.
  - lia.
  - discriminate.
  - reflexivity.
  - reflexivity.
  - reflexivity.
Defined.

Lemma flux_divergences_sum_to_zero_witness :
  exists m', loop_body demo_constants demo_state = Some m' /\
    sum2 (val m' uhwe) = zero /\ sum2 (val m' vhns) = zero.
Proof.
  apply (flux_divergences_sum_to_zero demo_constants 2 2 demo_state demo_state_WF);
    [lia | lia | discriminate].
Defined.

Lemma mass_conserved_over_run_witness :
  exists mn, repeat_stmt 2 (loop_body demo_constants) demo_state = Some mn /\
    sum2 (val mn eta_n) = sum2 (val demo_state eta_n).
Proof.
  apply (mass_conserved_over_run demo_constants 2 2 demo_state 2 demo_state_WF);
    [lia | lia | discriminate].
Defined.

Lemma water_at_rest_is_steady_witness :
  exists mn,
    repeat_stmt 2 (loop_body demo_constants) (start 2 2 (full 2 2 (Q2Qc 7)))
    = Some mn /\
    val mn u_n = zeros 2 2 /\ val mn v_n = zeros 2 2 /\
    val mn eta_n = full 2 2 (Q2Qc 7).
Proof.
  apply (water_at_rest_is_steady demo_constants 2 2
           (start 2 2 (full 2 2 (Q2Qc 7))) (Q2Qc 7) 2).
  - apply WF_start. split; [reflexivity | by repeat constructor].
  - lia.
  - lia.
  - discriminate.
  - reflexivity.
  - reflexivity.
  - reflexivity.
Defined.

Lemma recorded_sequence_witness :
  snapshots (steps demo_constants 2 2 2 demo_state)
  = ([Some (val (steps demo_constants 2 2 1 demo_state) u_n)],
     [Some (val (steps demo_constants 2 2 1 demo_state) v_n)],
     [Some (val (steps demo_constants 2 2 1 demo_state) eta_n)]).
Proof.
  destruct (recorded_sequence demo_constants 2 2 demo_state 2 demo_state_WF)
    as [_ Hs]; [lia | lia | discriminate | reflexivity | reflexivity
               | reflexivity |].
  exact Hs.
Defined.

Lemma number_of_snapshots_witness :
  exists m, simulate 5 2 2 demo_constants demo_eta = Some (m, 2%nat) /\
    length (u_list m) = 1%nat /\ length (v_list m) = 1%nat /\
    length (eta_list m) = 1%nat.
Proof.
  apply (number_of_snapshots demo_constants 2 2 demo_eta 5 demo_eta_shaped);
    [lia | lia | reflexivity | simpl; lia].
Defined.

Lemma snapshots_share_no_object_witness :
  exists mn, repeat_stmt 4 (loop_body demo_constants) demo_state = Some mn /\
    NoDup (u_list mn ++ v_list mn ++ eta_list mn).
Proof.
  apply (snapshots_share_no_object demo_constants 2 2 demo_state 4 demo_state_WF);
    [lia | lia | discriminate | reflexivity | reflexivity | reflexivity].
Defined.

Lemma mesh_coordinates_witness :
  exists k X Y, constants Cfg.default_config = Some k /\
    mesh Cfg.default_config = Some (X, Y) /\
    at2 X 3 5 = (- Cfg.L_x Cfg.default_config / 2 + INR 3 * dx k)%R /\
    at2 Y 3 5 = (- Cfg.L_y Cfg.default_config / 2 + INR 5 * dy k)%R.
Proof.
  destruct (mesh_coordinates Cfg.default_config)
    as (k & X & Y & Hk & Hmesh & _ & _ & Hxy); [simpl; lia | simpl; lia |].
  exists k, X, Y. split; [exact Hk |]. split; [exact Hmesh |].
  apply Hxy; simpl; lia.
Defined.

Lemma too_few_points_raise_witness :
  program 5
    {| Cfg.L_x := 1000000; Cfg.L_y := 1000000; Cfg.g := 981 / 100;
       Cfg.H := 100; Cfg.N_x := 1; Cfg.N_y := 150;
       Cfg.max_time_step := 5000; Cfg.anim_interval := 20 |} = None.
Proof.
  apply too_few_points_raise. left. simpl. lia.
Defined.


Lemma step_commutes_with_axis_swap_witness :
  exists m' mT', loop_body demo_constants demo_state = Some m' /\
    loop_body (swap_axes demo_constants)
      (start 2 2 [[Q2Qc 1; Q2Qc 0]; [Q2Qc 2; Q2Qc 3]]) = Some mT' /\
    mirrored 2 2 (val m' eta_n) (val mT' eta_n).
Proof.
  destruct (step_commutes_with_axis_swap demo_constants 2 2 demo_state
              (start 2 2 [[Q2Qc 1; Q2Qc 0]; [Q2Qc 2; Q2Qc 3]]) demo_state_WF)
    as (m' & mT' & H1 & H2 & _ & _ & He).
  - apply WF_start. split; [reflexivity | by repeat constructor].
  - lia.
  - lia.
  - discriminate.
  - intros [| [| i]] [| [| j]] Hi Hj; first [reflexivity | lia].
  - intros [| [| i]] [| [| j]] Hi Hj; first [reflexivity | lia].
  - intros [| [| i]] [| [| j]] Hi Hj; first [reflexivity | lia].
  - exists m', mT'. split; [exact H1 |]. split; [exact H2 | exact He].
Defined.
